(** * Filter-Employee-Badge-Data: a shallow embedding of [src/main.py]

    Text is modelled as a list of Unicode code points ([ustr]).  A pandas
    cell read with [dtype=str] is either a string or missing ([NaN]); it is
    an [option ustr], [None] standing for [NaN].  A table is a list of rows,
    each row an association list from column label to cell. *)

From Stdlib Require Import NArith ZArith List String Ascii Bool Lia Sorting.Sorted.
Import ListNotations.
Open Scope list_scope.

(* ------------------------------------------------------------------ *)
(** ** Text *)

Definition ustr := list N.
Definition cell := option ustr.

(** ASCII literal to code points, for writing concrete inputs. *)
Definition u (s : string) : ustr := map N_of_ascii (list_ascii_of_string s).

Fixpoint ustr_eqb (a b : ustr) : bool :=
  match a, b with
  | [], [] => true
  | x :: a', y :: b' => N.eqb x y && ustr_eqb a' b'
  | _, _ => false
  end.

Definition NBSP : N := 160.   (* U+00A0 *)
Definition ZWSP : N := 8203.  (* U+200B *)
Definition SPACE : N := 32.

(** [str.isspace] / [Py_UNICODE_ISSPACE]: the characters removed by
    [str.strip()] and matched by the regular expression [\s]. *)
Definition is_space (c : N) : bool :=
  ((9 <=? c) && (c <=? 13))%N || ((28 <=? c) && (c <=? 32))%N
  || (c =? 133)%N || (c =? 160)%N || (c =? 5760)%N
  || ((8192 <=? c) && (c <=? 8202))%N
  || (c =? 8232)%N || (c =? 8233)%N || (c =? 8239)%N || (c =? 8287)%N
  || (c =? 12288)%N.

(** Case data of the Python runtime, per code point: the full case
    folding of [str.casefold], the full lower-case mapping of [str.lower],
    and the Unicode properties Cased and Case_Ignorable that [str.lower]
    consults for a capital sigma.  They are parameters of the development;
    [ascii_case] below is the Unicode table restricted to ASCII, the
    instance used on concrete inputs, all of which are ASCII. *)
Class UnicodeCase := {
  casefold_cp : N -> list N;
  lower_cp : N -> list N;
  is_cased : N -> bool;
  is_case_ignorable : N -> bool
}.

Definition ascii_lower_cp (c : N) : list N :=
  if ((65 <=? c) && (c <=? 90))%N then [(c + 32)%N] else [c].

Definition ascii_is_cased (c : N) : bool :=
  ((65 <=? c) && (c <=? 90))%N || ((97 <=? c) && (c <=? 122))%N.

(** The ASCII characters with Case_Ignorable: ' . : ^ ` *)
Definition ascii_is_case_ignorable (c : N) : bool :=
  (c =? 39)%N || (c =? 46)%N || (c =? 58)%N || (c =? 94)%N || (c =? 96)%N.

#[global] Instance ascii_case : UnicodeCase := {
  casefold_cp := ascii_lower_cp;
  lower_cp := ascii_lower_cp;
  is_cased := ascii_is_cased;
  is_case_ignorable := ascii_is_case_ignorable
}.

(** The Unicode table restricted to ASCII and the basic Greek letters
    (capitals U+0391..U+03A9, small letters U+03B1..U+03C9, final sigma
    U+03C2 included), as in the Unicode Character Database. *)
Definition greek_capital (c : N) : bool :=
  ((913 <=? c) && (c <=? 937))%N && negb (c =? 930)%N.

Definition greek_lower_cp (c : N) : list N :=
  if greek_capital c then [(c + 32)%N] else ascii_lower_cp c.

Definition greek_casefold_cp (c : N) : list N :=
  if (c =? 962)%N then [963%N] else greek_lower_cp c.

Definition greek_is_cased (c : N) : bool :=
  ascii_is_cased c || greek_capital c || ((945 <=? c) && (c <=? 969))%N.

(** Not an instance: it is passed explicitly where it is used. *)
Definition greek_case : UnicodeCase :=
  Build_UnicodeCase greek_casefold_cp greek_lower_cp greek_is_cased ascii_is_case_ignorable.

Section Text.
Context {UC : UnicodeCase}.

(** [x.casefold()] *)
Definition casefold (s : ustr) : ustr := flat_map casefold_cp s.

(** The first character of [s] that is not Case_Ignorable. *)
Fixpoint first_non_ignorable (s : ustr) : option N :=
  match s with
  | [] => None
  | c :: t => if is_case_ignorable c then first_non_ignorable t else Some c
  end.

(** [handle_capital_sigma] of CPython's [unicodeobject.c]: U+03A3 is in
    the Final_Sigma context when the nearest preceding character that is
    not Case_Ignorable is Cased, and no Cased character follows after
    Case_Ignorable ones.  [rbefore] is the text before it, reversed. *)
Definition final_sigma (rbefore after : ustr) : bool :=
  match first_non_ignorable rbefore with
  | Some c => is_cased c && match first_non_ignorable after with
                            | Some c' => negb (is_cased c')
                            | None => true
                            end
  | None => false
  end.

(** [lower_ucs4]: U+03A3 becomes U+03C2 in the Final_Sigma context and
    U+03C3 elsewhere; every other character takes its full lower-case
    mapping. *)
Fixpoint lower_aux (rbefore s : ustr) : ustr :=
  match s with
  | [] => []
  | c :: t =>
      (if (c =? 931)%N then [if final_sigma rbefore t then 962%N else 963%N]
       else lower_cp c) ++ lower_aux (c :: rbefore) t
  end.

(** [x.lower()] *)
Definition lower (s : ustr) : ustr := lower_aux [] s.

(** [.str.replace(old, new, regex=False)] for a one-character [old]. *)
Definition replace_char (old : N) (new : ustr) (s : ustr) : ustr :=
  flat_map (fun c => if (c =? old)%N then new else [c]) s.

Fixpoint lstrip (s : ustr) : ustr :=
  match s with
  | [] => []
  | c :: t => if is_space c then lstrip t else s
  end.

(** [str.strip()] *)
Definition strip (s : ustr) : ustr := rev (lstrip (rev (lstrip s))).

(** [re.sub(r"\s+", " ", s)]: every maximal run of whitespace becomes one
    space; [in_run] records that the previous character was whitespace. *)
Fixpoint collapse_aux (in_run : bool) (s : ustr) : ustr :=
  match s with
  | [] => []
  | c :: t =>
      if is_space c then
        if in_run then collapse_aux true t else SPACE :: collapse_aux true t
      else c :: collapse_aux false t
  end.

Definition collapse_ws (s : ustr) : ustr := collapse_aux false s.

(** [.astype(str)]: a missing cell becomes the text ["nan"]. *)
Definition astype_str (x : cell) : ustr :=
  match x with Some s => s | None => u "nan" end.

(** [.fillna("")] *)
Definition fillna_empty (x : cell) : cell :=
  match x with Some s => Some s | None => Some [] end.

(** [.replace({"nan": ""})]: whole-value replacement. *)
Definition replace_nan (s : ustr) : ustr :=
  if ustr_eqb s (u "nan") then [] else s.

(** The steps of [clean_series] before the missing-value mapping:
    [astype(str)], U+00A0 to space, U+200B removed, [strip]. *)
Definition clean_pre (x : cell) : ustr :=
  strip (replace_char ZWSP [] (replace_char NBSP [SPACE] (astype_str x))).

(** [clean_series], applied to one cell. *)
Definition clean_cell (x : cell) : ustr :=
  casefold (collapse_ws (replace_nan (clean_pre x))).

Definition clean_series (xs : list cell) : list ustr := map clean_cell xs.

End Text.

(* ------------------------------------------------------------------ *)
(** ** Constants ([src/constants.py]) *)

Definition ALLOWED_STATUS : list ustr :=
  [u "In Progress"; u "Completed"; u "Not Started"; u "Submitted"; u "Rejected"].

Definition ALLOWED_CYCLES : list ustr :=
  [u "FY26-Q3(Jan-Mar)"; u "FY26-Q2(Oct-Dec)"; u "FY26-Q1(July-Sep)";
   u "FY26-Q4(Apr-Jun)"].

Definition DEFAULT_gpn_id : ustr := u "GPN".
Definition DEFAULT_name : ustr := u "Name".
Definition DEFAULT_status : ustr := u "Status".
Definition DEFAULT_cycle : ustr := u "Completion-Cycle".

(* ------------------------------------------------------------------ *)
(** ** Dictionaries and tables *)

(** A Python [dict] with string keys: insertion-ordered, assigning to an
    existing key replaces its value in place. *)
Definition dict (V : Type) := list (ustr * V).

Fixpoint dict_set {V} (d : dict V) (k : ustr) (v : V) : dict V :=
  match d with
  | [] => [(k, v)]
  | (k', v') :: d' => if ustr_eqb k' k then (k', v) :: d' else (k', v') :: dict_set d' k v
  end.

Fixpoint dict_get {V} (d : dict V) (k : ustr) : option V :=
  match d with
  | [] => None
  | (k', v') :: d' => if ustr_eqb k' k then Some v' else dict_get d' k
  end.

(** [dict(zip(keys, values))] *)
Definition dict_of {V} (kvs : list (ustr * V)) : dict V :=
  fold_left (fun d kv => dict_set d (fst kv) (snd kv)) kvs [].

(** A row maps column labels to cells; [df[col]] reads one column. *)
Definition Row := list (ustr * cell).

Definition get_cell (r : Row) (col : ustr) : cell :=
  match dict_get r col with Some x => x | None => None end.

Record Table := { columns : list ustr; rows : list Row }.

(* ------------------------------------------------------------------ *)
(** ** Sorting ([sort_values]) and [drop_duplicates] *)

(** Python's [str] ordering: code point by code point, a proper prefix
    first. *)
Fixpoint ustr_compare (a b : ustr) : comparison :=
  match a, b with
  | [], [] => Eq
  | [], _ :: _ => Lt
  | _ :: _, [] => Gt
  | x :: a', y :: b' =>
      match N.compare x y with Eq => ustr_compare a' b' | c => c end
  end.

(** Object columns sort with missing values last ([na_position="last"]). *)
Definition cell_compare (a b : cell) : comparison :=
  match a, b with
  | Some x, Some y => ustr_compare x y
  | Some _, None => Lt
  | None, Some _ => Gt
  | None, None => Eq
  end.

(** A sort on several columns goes through pandas' [lexsort_indexer], a
    stable sort; it is modelled by a stable insertion sort: [x] is placed
    before the first element it is [le] to. *)
Fixpoint insert_by {A} (le : A -> A -> bool) (x : A) (l : list A) : list A :=
  match l with
  | [] => [x]
  | y :: t => if le x y then x :: l else y :: insert_by le x t
  end.

Fixpoint stable_sort {A} (le : A -> A -> bool) (l : list A) : list A :=
  match l with
  | [] => []
  | x :: t => insert_by le x (stable_sort le t)
  end.

(** [drop_duplicates(subset=[key], keep="first")] *)
Fixpoint drop_duplicates_first {A K} (eqb : K -> K -> bool) (key : A -> K)
    (seen : list K) (l : list A) : list A :=
  match l with
  | [] => []
  | x :: t =>
      if existsb (eqb (key x)) seen then drop_duplicates_first eqb key seen t
      else x :: drop_duplicates_first eqb key (key x :: seen) t
  end.

(* ------------------------------------------------------------------ *)
(** ** [coalesce_columns] *)

(** The [KeyError] raised when no candidate matches; its message is
    [f"Column not found. Tried {tried}. Available: {available}"]. *)
Record KeyError := { tried : list ustr; available : list ustr }.

Section Columns.
Context {UC : UnicodeCase}.

Definition hdr_clean (x : ustr) : ustr :=
  strip (replace_char ZWSP [] (replace_char NBSP [SPACE] x)).

(** [norm]: [hdr_clean(x).strip().lower().replace("-", " ").replace("_", " ")] *)
Definition hdr_norm (x : ustr) : ustr :=
  replace_char 95 [SPACE] (replace_char 45 [SPACE] (lower (strip (hdr_clean x)))).

(** [norm_map = {norm(c): c for c in df.columns}] *)
Definition norm_map (cols : list ustr) : dict ustr :=
  fold_left (fun d c => dict_set d (hdr_norm c) c) cols [].

(** The loop [for cand in [primary] + alternates]. *)
Fixpoint try_candidates (nm : dict ustr) (cands : list ustr) : option ustr :=
  match cands with
  | [] => None
  | cand :: rest =>
      match dict_get nm (hdr_norm cand) with
      | Some c => Some c
      | None => try_candidates nm rest
      end
  end.

Definition coalesce_columns (cols : list ustr) (primary : ustr) (alternates : list ustr)
  : KeyError + ustr :=
  match try_candidates (norm_map cols) (primary :: alternates) with
  | Some c => inr c
  | None => inl {| tried := primary :: alternates; available := cols |}
  end.

End Columns.

(* ------------------------------------------------------------------ *)
(** ** The pipeline stages *)

(** [", ".join(parts)] *)
Fixpoint join (sep : ustr) (parts : list ustr) : ustr :=
  match parts with
  | [] => []
  | [p] => p
  | p :: rest => p ++ sep ++ join sep rest
  end.

(** [x in allowed] for a set of strings *)
Definition mem (x : ustr) (xs : list ustr) : bool := existsb (ustr_eqb x) xs.

Section Stages.
Context {UC : UnicodeCase}.

(** The six predicates of [compute_exceptions] for one row, and the list
    [r] of reasons built by the sequence of [if ...: r.append(...)]. *)
Definition row_reasons (col_gpn col_name col_status col_cycle : ustr) (row : Row)
  : list ustr :=
  let status_norm := clean_cell (fillna_empty (get_cell row col_status)) in
  let cycle_norm := clean_cell (fillna_empty (get_cell row col_cycle)) in
  let gpn := clean_cell (get_cell row col_gpn) in
  let name := clean_cell (get_cell row col_name) in
  let status_blank := ustr_eqb status_norm [] in
  let cycle_blank := ustr_eqb cycle_norm [] in
  let status_allowed := map casefold ALLOWED_STATUS in
  let cycle_allowed := map casefold ALLOWED_CYCLES in
  let status_invalid := negb status_blank && negb (mem status_norm status_allowed) in
  let cycle_invalid := negb cycle_blank && negb (mem cycle_norm cycle_allowed) in
  let gpn_blank := ustr_eqb gpn [] in
  let name_blank := ustr_eqb name [] in
  let r := [] in
  let r := if status_blank then r ++ [u "Blank Status"] else r in
  let r := if status_invalid then r ++ [u "Invalid Status"] else r in
  let r := if cycle_blank then r ++ [u "Blank Completion-Cycle"] else r in
  let r := if cycle_invalid then r ++ [u "Invalid Completion-Cycle"] else r in
  let r := if gpn_blank then r ++ [u "Blank GPN"] else r in
  let r := if name_blank then r ++ [u "Blank Name"] else r in
  r.

(** [compute_exceptions]: each kept row with its (RangeIndex) position
    and its [ExceptionReason]. *)
Definition compute_exceptions (df : list Row) (col_gpn col_name col_status col_cycle : ustr)
  : list (nat * Row * ustr) :=
  let reasons := map (fun row => join (u ", ") (row_reasons col_gpn col_name col_status col_cycle row)) df in
  let out := combine (combine (seq 0 (List.length df)) df) reasons in
  filter (fun o => negb (ustr_eqb (snd o) [])) out.

(** [apply_filters] *)
Definition apply_filters (df : list Row) (col_status col_cycle : ustr)
    (sel_status sel_cycle : list ustr) : list Row :=
  let s_norm row := clean_cell (fillna_empty (get_cell row col_status)) in
  let c_norm row := clean_cell (fillna_empty (get_cell row col_cycle)) in
  let sel_s := match sel_status with [] => None | _ => Some (map casefold sel_status) end in
  let sel_c := match sel_cycle with [] => None | _ => Some (map casefold sel_cycle) end in
  let mask row :=
    (match sel_s with None => true | Some ss => mem (s_norm row) ss end)
    && (match sel_c with None => true | Some cs => mem (c_norm row) cs end) in
  filter mask df.

(** The order of [sort_values([col_gpn, col_name])]. *)
Definition gpn_name_le (p q : cell * cell) : bool :=
  match cell_compare (fst p) (fst q) with
  | Lt => true
  | Gt => false
  | Eq => match cell_compare (snd p) (snd q) with Gt => false | _ => true end
  end.

Definition cell_eqb (a b : cell) : bool :=
  match a, b with
  | Some x, Some y => ustr_eqb x y
  | None, None => true
  | _, _ => false
  end.

(** [build_unique_gpn]: the two columns replaced by their [clean_series],
    [dropna(subset=[col_gpn])], stable sort on (gpn, name),
    [drop_duplicates(subset=[col_gpn], keep="first")]. *)
Definition build_unique_gpn (df : list Row) (col_gpn col_name : ustr) : list (cell * cell) :=
  let assigned := map (fun row => (Some (clean_cell (get_cell row col_gpn)),
                                   Some (clean_cell (get_cell row col_name)))) df in
  let dropped := filter (fun p => match fst p with Some _ => true | None => false end) assigned in
  let sorted := stable_sort gpn_name_le dropped in
  drop_duplicates_first cell_eqb fst [] sorted.

(** [_EMAIL_raw]: like [clean_series] but without the missing-value
    mapping and without case folding. *)
Definition email_raw (x : cell) : ustr :=
  collapse_ws (strip (replace_char ZWSP [] (replace_char NBSP [SPACE] (astype_str x)))).

(** The order of [sort_values(["_GPN_norm", "_email_blank"])]
    ([False] before [True]). *)
Definition gpn_blank_le (p q : ustr * ustr * bool) : bool :=
  match ustr_compare (fst (fst p)) (fst (fst q)) with
  | Lt => true
  | Gt => false
  | Eq => implb (snd p) (snd q)
  end.

(** [build_gpn_to_email_map] after its two columns are resolved; each row
    is reduced to [(_GPN_norm, _EMAIL_raw, _email_blank)]. *)
Definition email_map_of (dfm : list Row) (col_gpn col_email : ustr) : dict ustr :=
  let tagged := map (fun row => (clean_cell (get_cell row col_gpn),
                                 email_raw (get_cell row col_email))) dfm in
  let kept := filter (fun p => negb (ustr_eqb (fst p) [])) tagged in
  let dfm_sorted := stable_sort gpn_blank_le
                      (map (fun p => (fst p, snd p, ustr_eqb (snd p) [])) kept) in
  let dedup := drop_duplicates_first ustr_eqb (fun t => fst (fst t)) [] dfm_sorted in
  dict_of (map fst dedup).

Definition build_gpn_to_email_map (dfm : Table) : KeyError + dict ustr :=
  match coalesce_columns (columns dfm) (u "GPN")
          [u "GPN ID"; u "Gpn"; u "GPN_Id"; u "GPN Id"] with
  | inl e => inl e
  | inr col_gpn =>
      match coalesce_columns (columns dfm) (u "Email ID")
              [u "EmailID"; u "Email"; u "Email Address"; u "Mail"; u "E-mail ID"] with
      | inl e => inl e
      | inr col_email => inr (email_map_of (rows dfm) col_gpn col_email)
      end
  end.

End Stages.

(* ------------------------------------------------------------------ *)
(** ** Notification and the orchestrator ([perform_action_with_emails],
    [main]) *)

(** Observable effects of a run.  Console output is recorded with the
    values printed, not their formatting; the COM calls to Outlook are
    [EvCompose] (CoInitialize, Dispatch, Logon, CreateItem and filling
    [To], [Subject], [HTMLBody]) followed by [EvDisplay], [EvSend] or
    [EvSaveDraft]. *)
Inductive Event :=
| EvColumnError (e : KeyError)
| EvAllGood
| EvExceptionReport (lines : list (ustr * ustr))
| EvSelections (sel_status sel_cycle : list ustr)
| EvNoRowsMatched
| EvUniqueGPNs (out : list (cell * cell))
| EvBuildContactMap
| EvContact (gpn name email : ustr)
| EvNoValidEmails
| EvCompose (recipients : list ustr) (subject body : ustr)
| EvDisplay
| EvSend
| EvSaveDraft
| EvMissingGPNs (gpns : list ustr).

Inductive PyError :=
| ErrKey (e : KeyError)
| ErrFileNotFound
| ErrOutlookAborted.

(** How [main] ends: returning, [sys.exit(code)], or an uncaught exception. *)
Inductive Outcome :=
| Finished
| SysExit (code : nat)
| Raised (err : PyError).

Section Run.
Context {UC : UnicodeCase}.

(** The [clean] list of [perform_action_with_emails]: stripped, non-empty,
    first occurrence per lower-cased address. *)
Fixpoint clean_emails (seen : list ustr) (emails : list ustr) : list ustr :=
  match emails with
  | [] => []
  | e :: rest =>
      let s := strip e in
      let k := lower s in
      if negb (ustr_eqb s []) && negb (mem k seen)
      then s :: clean_emails (k :: seen) rest
      else clean_emails seen rest
  end.

(** [perform_action_with_emails]; [send_ok] is whether [mail.Send()]
    succeeds. *)
Definition perform_action_with_emails (emails : list ustr) (subject html_body : ustr)
    (display_before_send send_ok : bool) : list Event * Outcome :=
  let clean := clean_emails [] emails in
  match clean with
  | [] => ([EvNoValidEmails], Finished)
  | _ =>
      let composed := [EvCompose clean subject html_body] in
      if display_before_send then (composed ++ [EvDisplay], Finished)
      else if send_ok then (composed ++ [EvSend], Finished)
      else (composed ++ [EvSaveDraft], Raised ErrOutlookAborted)
  end.

(** The loop of [main] over [output_by_gpn]: resolved addresses and
    identifiers without one. *)
Fixpoint resolve_contacts (gpn_to_email : dict ustr) (out : list (cell * cell))
  : list Event * list ustr * list ustr :=
  match out with
  | [] => ([], [], [])
  | (g, n) :: rest =>
      let gpn_val := strip (astype_str g) in
      let name_val := strip (astype_str n) in
      let email := match dict_get gpn_to_email (casefold gpn_val) with
                   | Some e => e | None => [] end in
      let '(evs, valid, missing) := resolve_contacts gpn_to_email rest in
      if ustr_eqb email []
      then (evs, valid, gpn_val :: missing)
      else (EvContact gpn_val name_val email :: evs, email :: valid, missing)
  end.

(** The exception report: [(gpn, reason)] for the first 100 exceptions. *)
Definition exception_lines (col_gpn : ustr) (exc : list (nat * Row * ustr))
  : list (ustr * ustr) :=
  map (fun o => (match get_cell (snd (fst o)) col_gpn with
                 | Some g => strip g | None => [] end, strip (snd o)))
      (firstn 100 exc).

(** [main] from the point where the roster [df] is loaded.  The prompts'
    answers [sel_status], [sel_cycle], the contact table [dfm] and the
    email configuration ([None]: file missing; [Some (subject,
    template)]) are its inputs. *)
Definition main_run (df : Table) (sel_status sel_cycle : list ustr) (dfm : Table)
    (email_cfg : option (ustr * ustr)) : list Event * Outcome :=
  let cols := columns df in
  let resolved :=
    match coalesce_columns cols DEFAULT_gpn_id [u "GPNID"; u "GPN Id"; u "GPN_Id"; u "GPN ID"] with
    | inl e => inl e
    | inr cg =>
    match coalesce_columns cols DEFAULT_name [u "Employee Name"; u "Full Name"] with
    | inl e => inl e
    | inr cn =>
    match coalesce_columns cols DEFAULT_status [u "Status"] with
    | inl e => inl e
    | inr cs =>
    match coalesce_columns cols DEFAULT_cycle [u "Completion Cycle"; u "CompletionCycle"] with
    | inl e => inl e
    | inr cc => inr (cg, cn, cs, cc)
    end end end end in
  match resolved with
  | inl e => ([EvColumnError e], SysExit 1)
  | inr (col_gpn, col_name, col_status, col_cycle) =>
      let exceptions := compute_exceptions (rows df) col_gpn col_name col_status col_cycle in
      let ev1 := match exceptions with
                 | [] => [EvAllGood]
                 | _ => [EvExceptionReport (exception_lines col_gpn exceptions)]
                 end in
      let ev2 := ev1 ++ [EvSelections sel_status sel_cycle] in
      let filtered := apply_filters (rows df) col_status col_cycle sel_status sel_cycle in
      let output_by_gpn := build_unique_gpn filtered col_gpn col_name in
      match output_by_gpn with
      | [] => (ev2 ++ [EvNoRowsMatched], SysExit 0)
      | _ =>
          let ev3 := ev2 ++ [EvUniqueGPNs output_by_gpn; EvBuildContactMap] in
          match build_gpn_to_email_map dfm with
          | inl e => (ev3, Raised (ErrKey e))
          | inr gpn_to_email =>
              let '(evs, valid_emails, missing_gpns) := resolve_contacts gpn_to_email output_by_gpn in
              let ev4 := ev3 ++ evs in
              match email_cfg with
              | None => (ev4, Raised ErrFileNotFound)
              | Some (subject, html_template) =>
                  let '(evs5, res) := perform_action_with_emails valid_emails subject html_template true true in
                  let ev5 := ev4 ++ evs5 in
                  match res with
                  | Finished =>
                      (ev5 ++ match missing_gpns with [] => [] | _ => [EvMissingGPNs missing_gpns] end,
                       Finished)
                  | r => (ev5, r)
                  end
              end
          end
      end
  end.

End Run.

(* ------------------------------------------------------------------ *)
(** ** Concrete inputs *)

Definition roster_row (g n s c : string) : Row :=
  [(u "GPN", Some (u g)); (u "Name", Some (u n)); (u "Status", Some (u s));
   (u "Completion-Cycle", Some (u c))].

(** The two-row roster of the end-to-end example. *)
Definition two_row_roster : Table :=
  {| columns := [u "GPN"; u "Name"; u "Status"; u "Completion-Cycle"];
     rows := [roster_row "A1" "Alice" "Completed" "FY26-Q1(July-Sep)";
              roster_row "" "Bob" "Weird" ""] |}.

Definition contact_row (g e : cell) : Row := [(u "GPN", g); (u "Email ID", e)].

Definition contact_table (rs : list Row) : Table :=
  {| columns := [u "GPN"; u "Email ID"]; rows := rs |}.

(** Canonical text: the shape of a [clean_series] result before case
    folding: no U+200B, whitespace only as single ordinary spaces between
    other characters. *)
Inductive gstate := GStart | GWord | GGap.

Fixpoint gapless (st : gstate) (s : ustr) : bool :=
  match s with
  | [] => true
  | c :: t =>
      if is_space c
      then match st with GWord => true | _ => false end && (c =? SPACE)%N && gapless GGap t
      else negb (c =? ZWSP)%N && gapless GWord t
  end.

Definition trail_ok (s : ustr) : bool :=
  match rev s with [] => true | c :: _ => negb (is_space c) end.

Definition canonical (s : ustr) : bool := gapless GStart s && trail_ok s.

(** The facts of Unicode case folding the idempotence proof relies on:
    whitespace folds to itself, every other character (but U+200B) folds to
    a non-empty run of characters that are neither whitespace nor U+200B,
    and folding is idempotent. *)
Definition casefold_ok {UC : UnicodeCase} : Prop :=
  forall c,
    (is_space c = true -> casefold_cp c = [c]) /\
    (is_space c = false -> c <> ZWSP ->
       casefold_cp c <> [] /\
       Forall (fun d => is_space d = false /\ d <> ZWSP) (casefold_cp c)) /\
    casefold (casefold_cp c) = casefold_cp c.

(** Spec side of the column resolver.  Two header characters are
    interchangeable when they lower-case alike, or both are one of '-',
    '_' and ' '. *)
Definition hdr_equiv {UC : UnicodeCase} (a b : N) : Prop :=
  lower_cp a = lower_cp b \/ (In a [45; 95; 32]%N /\ In b [45; 95; 32]%N).

(** Whether some column label normalises like [cand]. *)
Definition column_matches {UC : UnicodeCase} (cols : list ustr) (cand : ustr) : Prop :=
  Exists (fun c => hdr_norm c = hdr_norm cand) cols.

(** The last column label normalising to [k]. *)
Fixpoint last_match {UC : UnicodeCase} (cols : list ustr) (k : ustr) : option ustr :=
  match cols with
  | [] => None
  | c :: cs =>
      match last_match cs k with
      | Some d => Some d
      | None => if ustr_eqb (hdr_norm c) k then Some c else None
      end
  end.

(** Spec side of the filter and of the classifier: a field normalised as
    §4.1 says, after [fillna("")]. *)
Definition norm_field {UC : UnicodeCase} (col : ustr) (row : Row) : ustr :=
  clean_cell (fillna_empty (get_cell row col)).

(** The six rules in their fixed order, each with whether it fires. *)
Definition reason_table {UC : UnicodeCase} (col_gpn col_name col_status col_cycle : ustr)
    (row : Row) : list (ustr * bool) :=
  let st := norm_field col_status row in
  let cy := norm_field col_cycle row in
  [(u "Blank Status", ustr_eqb st []);
   (u "Invalid Status", negb (ustr_eqb st []) && negb (mem st (map casefold ALLOWED_STATUS)));
   (u "Blank Completion-Cycle", ustr_eqb cy []);
   (u "Invalid Completion-Cycle", negb (ustr_eqb cy []) && negb (mem cy (map casefold ALLOWED_CYCLES)));
   (u "Blank GPN", ustr_eqb (clean_cell (get_cell row col_gpn)) []);
   (u "Blank Name", ustr_eqb (clean_cell (get_cell row col_name)) [])].

(** The names of the rules a row triggers, in the fixed order. *)
Definition triggered {UC : UnicodeCase} (col_gpn col_name col_status col_cycle : ustr)
    (row : Row) : list ustr :=
  map fst (filter snd (reason_table col_gpn col_name col_status col_cycle row)).

(** Spec side of the classifier: every row with at least one triggered
    rule, with its position and its reasons joined by [", "]. *)
Definition exceptions_spec {UC : UnicodeCase} (df : list Row)
    (col_gpn col_name col_status col_cycle : ustr) : list (nat * Row * ustr) :=
  flat_map (fun ir =>
              match triggered col_gpn col_name col_status col_cycle (snd ir) with
              | [] => []
              | rs => [(fst ir, snd ir, join (u ", ") rs)]
              end)
           (combine (seq 0 (List.length df)) df).

(** Spec side of the contact map: each contact-table row as its
    normalised identifier and its contact string. *)
Definition contact_pairs {UC : UnicodeCase} (col_gpn col_email : ustr) (dfm : list Row)
  : list (ustr * ustr) :=
  map (fun row => (clean_cell (get_cell row col_gpn), email_raw (get_cell row col_email))) dfm.

(** The contact §4.6 prefers for identifier [k]: the first row with that
    identifier and a non-blank contact, else the first row with that
    identifier. *)
Definition preferred_contact (pairs : list (ustr * ustr)) (k : ustr) : option ustr :=
  match find (fun p => ustr_eqb (fst p) k && negb (ustr_eqb (snd p) [])) pairs with
  | Some p => Some (snd p)
  | None => match find (fun p => ustr_eqb (fst p) k) pairs with
            | Some p => Some (snd p)
            | None => None
            end
  end.

(* ------------------------------------------------------------------ *)
(** ** [prompt_multi_select] *)






Section Prompt.
Context {UC : UnicodeCase}.
(** Python's [int()] on a stripped string: [None] when it raises
    [ValueError].  The properties below hold for every such function. *)
Variable py_int : ustr -> option Z.




End Prompt.



(** The events that touch Outlook. *)
Definition mail_event (ev : Event) : bool :=
  match ev with
  | EvCompose _ _ _ | EvDisplay | EvSend | EvSaveDraft => true
  | _ => false
  end.

(* ================================================================== *)
(** * Proofs *)

Lemma ustr_eqb_eq : forall a b, ustr_eqb a b = true <-> a = b.
Proof.
  induction a as [|x a IH]; destruct b as [|y b]; simpl; try (split; congruence).
  rewrite andb_true_iff, N.eqb_eq, IH. split; [intros [-> ->]; reflexivity|].
  intros H; inversion H; auto.
Qed.

Lemma ustr_eqb_refl : forall a, ustr_eqb a a = true.
Proof. intros a. apply ustr_eqb_eq. reflexivity. Qed.

Lemma ustr_eqb_neq : forall a b, ustr_eqb a b = false <-> a <> b.
Proof.
  intros a b. rewrite <- ustr_eqb_eq. destruct (ustr_eqb a b); split; congruence.
Qed.

Section TextFacts.
Context {UC : UnicodeCase}.

Lemma replace_char_notin : forall old new s, ~ In old s -> replace_char old new s = s.
Proof.
  intros old new s. induction s as [|c s IH]; simpl; intros H; [reflexivity|].
  destruct (N.eqb_spec c old); [exfalso; auto|].
  simpl. f_equal. apply IH. auto.
Qed.

Lemma replace_char_removes : forall old s c, In c (replace_char old [] s) -> c <> old.
Proof.
  intros old s c. induction s as [|d s IH]; simpl; [tauto|].
  destruct (N.eqb_spec d old); simpl.
  - exact IH.
  - intros [<- | H]; auto.
Qed.

Lemma gapless_chars : forall s st c, gapless st s = true -> In c s ->
  c <> NBSP /\ c <> ZWSP.
Proof.
  induction s as [|d s IH]; simpl; intros st c H Hin; [contradiction|].
  destruct (is_space d) eqn:Hs.
  - apply andb_true_iff in H as [H1 H2]. apply andb_true_iff in H1 as [_ H1].
    apply N.eqb_eq in H1. destruct Hin as [<- | Hin]; eauto.
    subst. unfold NBSP, ZWSP, SPACE. split; discriminate.
  - apply andb_true_iff in H as [H1 H2]. destruct Hin as [<- | Hin]; eauto.
    split.
    + intros ->. discriminate.
    + intros ->. discriminate.
Qed.

Lemma gapless_collapse_id : forall s st, gapless st s = true ->
  collapse_aux (match st with GGap => true | _ => false end) s = s.
Proof.
  induction s as [|c s IH]; simpl; intros st H; [reflexivity|].
  destruct (is_space c) eqn:Hs.
  - apply andb_true_iff in H as [H1 H2]. apply andb_true_iff in H1 as [H0 H1].
    apply N.eqb_eq in H1. subst c. destruct st; try discriminate.
    f_equal. exact (IH GGap H2).
  - apply andb_true_iff in H as [_ H2]. f_equal. exact (IH GWord H2).
Qed.

Lemma canonical_strip_id : forall s, canonical s = true -> strip s = s.
Proof.
  intros s H. apply andb_true_iff in H as [H1 H2]. unfold strip.
  assert (Hl : lstrip s = s).
  { destruct s as [|c t]; simpl; [reflexivity|]. simpl in H1.
    destruct (is_space c); [discriminate|reflexivity]. }
  rewrite Hl. unfold trail_ok in H2.
  destruct (rev s) as [|c t] eqn:Hr; simpl.
  - rewrite <- (rev_involutive s), Hr. reflexivity.
  - destruct (is_space c); [discriminate|]. rewrite <- Hr. apply rev_involutive.
Qed.

Lemma lstrip_snoc : forall w c, is_space c = false ->
  exists w', lstrip (w ++ [c]) = w' ++ [c].
Proof.
  induction w as [|d w IH]; simpl; intros c Hc.
  - rewrite Hc. exists []. reflexivity.
  - destruct (is_space d); [apply IH; exact Hc|]. exists (d :: w). reflexivity.
Qed.

Lemma lstrip_head : forall s, match lstrip s with [] => True | c :: _ => is_space c = false end.
Proof.
  induction s as [|c s IH]; simpl; [exact I|].
  destruct (is_space c) eqn:Hc; [exact IH|exact Hc].
Qed.

Lemma lstrip_incl : forall s c, In c (lstrip s) -> In c s.
Proof.
  induction s as [|d s IH]; simpl; intros c H; [exact H|].
  destruct (is_space d); [right; auto|exact H].
Qed.

Lemma strip_incl : forall s c, In c (strip s) -> In c s.
Proof.
  intros s c H. unfold strip in H. apply in_rev in H. apply lstrip_incl in H.
  apply in_rev in H. apply lstrip_incl in H. exact H.
Qed.

Lemma strip_first : forall s,
  match strip s with [] => True | c :: _ => is_space c = false end.
Proof.
  intros s. unfold strip. pose proof (lstrip_head s) as H.
  destruct (lstrip s) as [|c v]; [exact I|]. simpl.
  destruct (lstrip_snoc (rev v) c H) as [w' ->]. rewrite rev_app_distr. exact H.
Qed.

Lemma strip_last : forall s,
  match rev (strip s) with [] => True | c :: _ => is_space c = false end.
Proof. intros s. unfold strip. rewrite rev_involutive. apply lstrip_head. Qed.

Lemma collapse_gapless : forall m, (forall c, In c m -> c <> ZWSP) ->
  gapless GWord (collapse_aux false m) = true /\ gapless GGap (collapse_aux true m) = true.
Proof.
  induction m as [|c m IH]; simpl; intros Hz; [split; reflexivity|].
  assert (IH' := IH (fun d Hd => Hz d (or_intror Hd))). destruct IH' as [IH1 IH2].
  destruct (is_space c) eqn:Hs; simpl.
  - split; [exact IH2|exact IH2].
  - rewrite Hs. destruct (N.eqb_spec c ZWSP) as [E|_]; [exfalso; exact (Hz c (or_introl eq_refl) E)|].
    split; exact IH1.
Qed.

Lemma collapse_snoc : forall p e r, is_space e = false ->
  collapse_aux r (p ++ [e]) = collapse_aux r p ++ [e].
Proof.
  induction p as [|d p IH]; simpl; intros e r He.
  - rewrite He. reflexivity.
  - destruct (is_space d); [destruct r|]; simpl; rewrite ?IH; auto.
Qed.

Lemma canonical_collapse_strip : forall t, (forall c, In c t -> c <> ZWSP) ->
  canonical (collapse_ws (strip t)) = true.
Proof.
  intros t Hz. pose proof (strip_first t) as Hf. pose proof (strip_last t) as Hl.
  assert (Hz' : forall c, In c (strip t) -> c <> ZWSP) by (intros c Hc; apply Hz, strip_incl, Hc).
  destruct (strip t) as [|c m] eqn:Hs; [reflexivity|].
  unfold canonical. apply andb_true_iff. split.
  - unfold collapse_ws. simpl. repeat (rewrite Hf; simpl).
    destruct (N.eqb_spec c ZWSP) as [E|_]; [exfalso; exact (Hz' c (or_introl eq_refl) E)|].
    simpl. apply collapse_gapless. intros d Hd. apply Hz'. right. exact Hd.
  - destruct (rev (c :: m)) as [|e r] eqn:Hr; [simpl in Hr; symmetry in Hr; apply app_cons_not_nil in Hr; contradiction|].
    assert (Hcm : c :: m = rev r ++ [e]).
    { rewrite <- (rev_involutive (c :: m)), Hr. reflexivity. }
    unfold collapse_ws, trail_ok. rewrite Hcm, collapse_snoc by exact Hl.
    rewrite rev_app_distr. simpl. rewrite Hl. reflexivity.
Qed.

Section Folding.
Hypothesis Hcf : casefold_ok.

Lemma gapless_app_word : forall l r st,
  Forall (fun d => is_space d = false /\ d <> ZWSP) l -> l <> [] ->
  gapless st (l ++ r) = gapless GWord r.
Proof.
  induction l as [|d l IH]; intros r st Hf Hne; [congruence|].
  inversion Hf as [|? ? [Hs Hz] Hf']; subst. simpl. rewrite Hs.
  destruct (N.eqb_spec d ZWSP); [contradiction|]. simpl.
  destruct l as [|d' l]; [reflexivity|]. apply IH; [exact Hf'|discriminate].
Qed.

Lemma gapless_casefold : forall s st, gapless st s = true -> gapless st (casefold s) = true.
Proof.
  induction s as [|c s IH]; intros st H; [reflexivity|].
  unfold casefold. simpl. fold (casefold s).
  destruct (Hcf c) as [Hsp [Hns _]]. simpl in H.
  destruct (is_space c) eqn:Hs.
  - rewrite (Hsp eq_refl). simpl. rewrite Hs.
    apply andb_true_iff in H as [H1 H2]. rewrite H1. simpl. apply IH, H2.
  - apply andb_true_iff in H as [H1 H2].
    destruct (N.eqb_spec c ZWSP) as [E|NE]; [discriminate|].
    destruct (Hns eq_refl NE) as [Hne Hall].
    rewrite gapless_app_word by assumption. apply IH, H2.
Qed.

Lemma casefold_app : forall a b, casefold (a ++ b) = casefold a ++ casefold b.
Proof. intros a b. unfold casefold. apply flat_map_app. Qed.

Lemma trail_casefold : forall s, canonical s = true -> trail_ok (casefold s) = true.
Proof.
  intros s H. apply andb_true_iff in H as [H1 H2]. unfold trail_ok in *.
  destruct (rev s) as [|e r] eqn:Hr.
  - assert (s = []) as -> by (rewrite <- (rev_involutive s), Hr; reflexivity). reflexivity.
  - assert (Hs : s = rev r ++ [e]) by (rewrite <- (rev_involutive s), Hr; reflexivity).
    assert (He : is_space e = false) by (destruct (is_space e); [discriminate|reflexivity]).
    assert (Hz : e <> ZWSP).
    { apply (gapless_chars s GStart e H1). rewrite Hs. apply in_or_app. right. left. reflexivity. }
    destruct (Hcf e) as [_ [Hns _]]. destruct (Hns He Hz) as [Hne Hall].
    rewrite Hs, casefold_app. unfold casefold at 2. simpl. rewrite app_nil_r.
    destruct (exists_last Hne) as [y [z Hyz]]. rewrite Hyz, rev_app_distr. simpl.
    rewrite Forall_forall in Hall. destruct (Hall z) as [Hzs _].
    { rewrite Hyz. apply in_or_app. right. left. reflexivity. }
    rewrite rev_app_distr. simpl. rewrite Hzs. reflexivity.
Qed.

Lemma casefold_idem : forall s, casefold (casefold s) = casefold s.
Proof.
  induction s as [|c s IH]; [reflexivity|].
  change (casefold (c :: s)) with (casefold_cp c ++ casefold s).
  rewrite casefold_app, IH. destruct (Hcf c) as [_ [_ Hi]]. rewrite Hi. reflexivity.
Qed.

Lemma canonical_casefold : forall s, canonical s = true -> canonical (casefold s) = true.
Proof.
  intros s H. unfold canonical. rewrite trail_casefold by exact H.
  apply andb_true_iff in H as [H1 _]. rewrite gapless_casefold by exact H1. reflexivity.
Qed.

End Folding.
End TextFacts.

(** Evaluates the comparisons of code points in the goal that the
    arithmetic hypotheses decide. *)
Ltac n_cases :=
  repeat match goal with
         | |- context [(?a <=? ?b)%N] =>
             first [rewrite (proj2 (N.leb_le a b)) by lia | rewrite (proj2 (N.leb_gt a b)) by lia]
         | |- context [(?a =? ?b)%N] =>
             first [rewrite (proj2 (N.eqb_eq a b)) by lia | rewrite (proj2 (N.eqb_neq a b)) by lia]
         end; simpl; try reflexivity; try discriminate; try lia.

Lemma ascii_upper_not_space : forall c, (65 <= c <= 122)%N -> is_space c = false.
Proof. intros c Hc. unfold is_space. n_cases. Qed.

(** The ASCII case table satisfies the facts of [casefold_ok]. *)
Lemma ascii_casefold_ok : @casefold_ok ascii_case.
Proof.
  intros c. cbn [casefold_cp ascii_case]. unfold ascii_lower_cp.
  destruct (N.leb_spec 65 c), (N.leb_spec c 90); simpl.
  - split; [intros Hsp; rewrite ascii_upper_not_space in Hsp by lia; discriminate|].
    split.
    + intros _ _. split; [discriminate|]. constructor; [|constructor].
      split; [apply ascii_upper_not_space; lia|unfold ZWSP; lia].
    + unfold casefold; simpl. cbn [casefold_cp ascii_case]. unfold ascii_lower_cp. n_cases.
  - split; [reflexivity|]. split.
    + intros Hs Hz. split; [discriminate|]. repeat constructor; assumption.
    + unfold casefold; simpl. cbn [casefold_cp ascii_case]. unfold ascii_lower_cp. n_cases.
  - split; [reflexivity|]. split.
    + intros Hs Hz. split; [discriminate|]. repeat constructor; assumption.
    + unfold casefold; simpl. cbn [casefold_cp ascii_case]. unfold ascii_lower_cp. n_cases.
  - split; [reflexivity|]. split.
    + intros Hs Hz. split; [discriminate|]. repeat constructor; assumption.
    + unfold casefold; simpl. cbn [casefold_cp ascii_case]. unfold ascii_lower_cp. n_cases.
Qed.

Lemma clean_cell_empty {UC : UnicodeCase} : clean_cell (Some []) = [].
Proof. reflexivity. Qed.

(** The second pass over a normalised text that is not ["nan"]. *)
Lemma clean_cell_canonical {UC : UnicodeCase} : casefold_ok -> forall z,
  (forall c, In c z -> c <> ZWSP) -> ustr_eqb (casefold (collapse_ws (strip z))) (u "nan") = false ->
  clean_cell (Some (casefold (collapse_ws (strip z)))) = casefold (collapse_ws (strip z)).
Proof.
  intros Hcf z Hz Hn.
  assert (Hc : canonical (casefold (collapse_ws (strip z))) = true)
    by (apply canonical_casefold; [exact Hcf|apply canonical_collapse_strip, Hz]).
  set (y := casefold (collapse_ws (strip z))) in *.
  assert (Hg : gapless GStart y = true) by (apply andb_true_iff in Hc; apply Hc).
  unfold clean_cell, clean_pre, astype_str.
  rewrite (replace_char_notin NBSP) by (intros Hin; exact (proj1 (gapless_chars y GStart NBSP Hg Hin) eq_refl)).
  rewrite (replace_char_notin ZWSP) by (intros Hin; exact (proj2 (gapless_chars y GStart ZWSP Hg Hin) eq_refl)).
  rewrite canonical_strip_id by exact Hc.
  unfold replace_nan. rewrite Hn.
  unfold collapse_ws. rewrite (gapless_collapse_id y GStart Hg).
  unfold y. apply casefold_idem, Hcf.
Qed.

(** A row whose identifier normalises to [""] gets the reason
    ["Blank GPN"]. *)
Lemma row_reasons_gpn_blank {UC : UnicodeCase} : forall cg cn cs cc row,
  ustr_eqb (clean_cell (get_cell row cg)) [] = true ->
  In (u "Blank GPN") (row_reasons cg cn cs cc row).
Proof.
  intros cg cn cs cc row H. unfold row_reasons. cbv zeta. rewrite H.
  destruct (ustr_eqb (clean_cell (get_cell row cn)) []);
    [apply in_or_app; left|]; apply in_or_app; right; left; reflexivity.
Qed.

(* ------------------------------------------------------------------ *)
(** ** Claim C3: idempotence of [clean_series] *)

(** C3 (as stated) fails: [clean_series] is not idempotent.  The cell
    ["NaN"] normalises to ["nan"], which a second pass maps to [""]. *)
Lemma clean_cell_not_idempotent :
  ~ (forall x : cell, clean_cell (Some (clean_cell x)) = clean_cell x).
Proof.
  intros H. specialize (H (Some (u "NaN"))). vm_compute in H. discriminate H.
Qed.

(** C3 (amended): for every cell whose normalisation is not ["nan"],
    normalising the normalised text gives it back unchanged.  The case
    folding is any table with the properties of Unicode case folding
    listed in [casefold_ok]. *)
Theorem clean_cell_idempotent_except_nan {UC : UnicodeCase} (Hcf : casefold_ok)
    (x : cell) (Hx : clean_cell x <> u "nan") :
  clean_cell (Some (clean_cell x)) = clean_cell x.
Proof.
  destruct (ustr_eqb (clean_pre x) (u "nan")) eqn:E.
  - assert (H0 : clean_cell x = []) by (unfold clean_cell, replace_nan; rewrite E; reflexivity).
    rewrite H0. reflexivity.
  - assert (H0 : clean_cell x = casefold (collapse_ws (strip
              (replace_char ZWSP [] (replace_char NBSP [SPACE] (astype_str x))))))
      by (unfold clean_cell, replace_nan; rewrite E; reflexivity).
    rewrite H0 in *. apply clean_cell_canonical.
    + exact Hcf.
    + apply replace_char_removes.
    + apply ustr_eqb_neq. exact Hx.
Qed.

Lemma clean_cell_idempotent_except_nan_witness :
  clean_cell (Some ([NBSP] ++ u " In   Progress " ++ [ZWSP])) <> u "nan" /\
  clean_cell (Some (clean_cell (Some ([NBSP] ++ u " In   Progress " ++ [ZWSP]))))
  = clean_cell (Some ([NBSP] ++ u " In   Progress " ++ [ZWSP])).
Proof.
  split.
  - vm_compute. discriminate.
  - apply (clean_cell_idempotent_except_nan ascii_casefold_ok). vm_compute. discriminate.
Defined.

(* ------------------------------------------------------------------ *)
(** ** Claim C10: the missing-value mapping is case-sensitive *)

(** C10: a cell whose cleaned and trimmed text is exactly ["nan"]
    normalises to [""], so it is blank for the classifier; ["NaN"] and
    ["NAN"] normalise to ["nan"] and are present. *)
Theorem nan_mapping_case_sensitive (x : cell) (Hx : clean_pre x = u "nan") :
  clean_cell x = [] /\
  clean_cell (Some (u "NaN")) = u "nan" /\
  clean_cell (Some (u "NAN")) = u "nan" /\
  In (u "Blank GPN") (row_reasons (u "GPN") (u "Name") (u "Status") (u "Completion-Cycle")
        [(u "GPN", x); (u "Name", Some (u "Alice")); (u "Status", Some (u "Completed"));
         (u "Completion-Cycle", Some (u "FY26-Q1(July-Sep)"))]) /\
  row_reasons (u "GPN") (u "Name") (u "Status") (u "Completion-Cycle")
    (roster_row "NaN" "Alice" "Completed" "FY26-Q1(July-Sep)") = [] /\
  row_reasons (u "GPN") (u "Name") (u "Status") (u "Completion-Cycle")
    (roster_row "NAN" "Alice" "Completed" "FY26-Q1(July-Sep)") = [].
Proof.
  assert (Hc : clean_cell x = []) by (unfold clean_cell, replace_nan; rewrite Hx; reflexivity).
  split; [exact Hc|].
  split; [vm_compute; reflexivity|]. split; [vm_compute; reflexivity|].
  split; [|split; vm_compute; reflexivity].
  apply row_reasons_gpn_blank. unfold get_cell. cbn [dict_get].
  rewrite ustr_eqb_refl, Hc. reflexivity.
Qed.

Lemma nan_mapping_case_sensitive_witness :
  clean_pre (Some ([ZWSP] ++ u " nan" ++ [NBSP])) = u "nan" /\
  clean_cell (Some ([ZWSP] ++ u " nan" ++ [NBSP])) = [].
Proof.
  split; [vm_compute; reflexivity|].
  refine (proj1 (nan_mapping_case_sensitive (Some ([ZWSP] ++ u " nan" ++ [NBSP])) _)).
  vm_compute. reflexivity.
Defined.

(* ------------------------------------------------------------------ *)
(** ** Claims C1 and C2: deduplication keeps a blank identifier *)

(** C1: [dropna(subset=[col_gpn])] runs after [clean_series] has turned
    every cell into a string, so it drops nothing: a row whose identifier
    normalises to [""] survives deduplication. *)
Theorem build_unique_gpn_keeps_blank_gpn :
  build_unique_gpn [roster_row "" "Bob" "Weird" ""] (u "GPN") (u "Name")
  = [(Some [], Some (u "bob"))] /\
  build_unique_gpn [roster_row "A1" "Alice" "Completed" "FY26-Q1(July-Sep)";
                    contact_row None (Some (u "x"));
                    roster_row "" "Bob" "Weird" ""] (u "GPN") (u "Name")
  = [(Some [], Some []); (Some (u "a1"), Some (u "alice"))].
Proof. split; vm_compute; reflexivity. Qed.

(** C2: the end-to-end run on the two-row roster.  The exception report is
    as the spec says, but deduplication keeps Bob's row with the blank
    identifier, so resolution reports one unresolved identifier [""]. *)
Theorem two_row_roster_run :
  compute_exceptions (rows two_row_roster) (u "GPN") (u "Name") (u "Status") (u "Completion-Cycle")
  = [(1, roster_row "" "Bob" "Weird" "", u "Invalid Status, Blank Completion-Cycle, Blank GPN")] /\
  build_unique_gpn (apply_filters (rows two_row_roster) (u "Status") (u "Completion-Cycle") [] [])
    (u "GPN") (u "Name")
  = [(Some [], Some (u "bob")); (Some (u "a1"), Some (u "alice"))] /\
  build_gpn_to_email_map (contact_table [contact_row (Some (u "A1")) (Some (u "a1@ex.com"))])
  = inr [(u "a1", u "a1@ex.com")] /\
  snd (resolve_contacts [(u "a1", u "a1@ex.com")]
         [(Some [], Some (u "bob")); (Some (u "a1"), Some (u "alice"))])
  = [[]] /\
  snd (fst (resolve_contacts [(u "a1", u "a1@ex.com")]
         [(Some [], Some (u "bob")); (Some (u "a1"), Some (u "alice"))]))
  = [u "a1@ex.com"] /\
  main_run two_row_roster [] [] (contact_table [contact_row (Some (u "A1")) (Some (u "a1@ex.com"))])
    (Some (u "Badges", u "<p>Hi</p>"))
  = ([EvExceptionReport [([], u "Invalid Status, Blank Completion-Cycle, Blank GPN")];
      EvSelections [] [];
      EvUniqueGPNs [(Some [], Some (u "bob")); (Some (u "a1"), Some (u "alice"))];
      EvBuildContactMap;
      EvContact (u "a1") (u "alice") (u "a1@ex.com");
      EvCompose [u "a1@ex.com"] (u "Badges") (u "<p>Hi</p>");
      EvDisplay;
      EvMissingGPNs [[]]], Finished).
Proof. repeat split; vm_compute; reflexivity. Qed.

(* ------------------------------------------------------------------ *)
(** ** Claim C4: header normalisation *)

Lemma lstrip_id : forall s,
  match s with [] => True | c :: _ => is_space c = false end -> lstrip s = s.
Proof. intros [|c s] H; simpl; [reflexivity|]. rewrite H. reflexivity. Qed.

Lemma strip_idem {UC : UnicodeCase} : forall s, strip (strip s) = strip s.
Proof.
  intros s. pose proof (strip_first s) as Hf. pose proof (strip_last s) as Hl.
  unfold strip at 1. rewrite (lstrip_id (strip s) Hf).
  rewrite (lstrip_id _ Hl). apply rev_involutive.
Qed.

Lemma replace_char_app : forall old new a b,
  replace_char old new (a ++ b) = replace_char old new a ++ replace_char old new b.
Proof. intros. unfold replace_char. apply flat_map_app. Qed.

(** C4 (as stated) fails in two ways.  Whitespace runs in a header are
    not collapsed, so ["GPN  ID"] (two spaces) and ["GPN ID"] get
    different keys, and so do ["GPN\tID"] and ["GPN ID"].  And [str.lower]
    is not a per-character mapping: with the Unicode Greek letters,
    capital alpha, capital sigma (U+0391 U+03A3) and small alpha, small
    sigma (U+03B1 U+03C3) differ only in case, but the final capital sigma
    lowers to the final form U+03C2, so their keys differ. *)
Lemma hdr_norm_counterexamples :
  hdr_norm (u "GPN  ID") = u "gpn  id" /\ hdr_norm (u "GPN ID") = u "gpn id" /\
  hdr_norm (u "GPN  ID") <> hdr_norm (u "GPN ID") /\
  hdr_norm (u "GPN" ++ [9%N] ++ u "ID") <> hdr_norm (u "GPN ID") /\
  Forall2 (@hdr_equiv greek_case) (hdr_clean [913; 931]%N) (hdr_clean [945; 963]%N) /\
  @hdr_norm greek_case [913; 931]%N = [945; 962]%N /\
  @hdr_norm greek_case [945; 963]%N = [945; 963]%N.
Proof.
  split; [vm_compute; reflexivity|]. split; [vm_compute; reflexivity|].
  split; [vm_compute; discriminate|]. split; [vm_compute; discriminate|].
  split; [|split; vm_compute; reflexivity].
  vm_compute. repeat constructor; unfold hdr_equiv; left; vm_compute; reflexivity.
Qed.

Lemma lower_aux_no_sigma {UC : UnicodeCase} : forall s r,
  ~ In 931%N s -> lower_aux r s = flat_map lower_cp s.
Proof.
  induction s as [|c s IH]; intros r H; [reflexivity|]. simpl.
  destruct (N.eqb_spec c 931) as [->|_]; [exfalso; apply H; left; reflexivity|].
  f_equal. apply IH. intros Hs. apply H. right. exact Hs.
Qed.

(** C4 (amended): two labels whose [hdr_clean] forms (U+00A0 made a space,
    U+200B removed, trimmed) have the same length, contain no capital
    sigma U+03A3, and differ position by position only in letter case or
    in '-', '_' or ' ' standing for one another, get the same key; runs of
    whitespace are not collapsed.  The lower-casing table must leave '-',
    '_' and ' ' alone. *)
Theorem hdr_norm_case_and_separators {UC : UnicodeCase}
    (Hlow : lower_cp 45 = [45%N] /\ lower_cp 95 = [95%N] /\ lower_cp 32 = [32%N])
    (x y : ustr) (Hxy : Forall2 hdr_equiv (hdr_clean x) (hdr_clean y))
    (Hsx : ~ In 931%N (hdr_clean x)) (Hsy : ~ In 931%N (hdr_clean y)) :
  hdr_norm x = hdr_norm y.
Proof.
  assert (E : forall z, strip (hdr_clean z) = hdr_clean z)
    by (intros z; unfold hdr_clean; apply strip_idem).
  unfold hdr_norm. rewrite !E. unfold lower.
  rewrite (lower_aux_no_sigma _ _ Hsx), (lower_aux_no_sigma _ _ Hsy).
  clear Hsx Hsy.
  induction Hxy as [|a b l1 l2 Hab _ IH]; [reflexivity|].
  simpl flat_map. rewrite !replace_char_app.
  rewrite IH. f_equal.
  destruct Hlow as [H45 [H95 H32]].
  destruct Hab as [Hab | [Ha Hb]]; [rewrite Hab; reflexivity|].
  assert (Hsep : forall c, In c [45; 95; 32]%N ->
            replace_char 95 [SPACE] (replace_char 45 [SPACE] (lower_cp c)) = [SPACE]).
  { intros c [<- | [<- | [<- | []]]]; [rewrite H45|rewrite H95|rewrite H32]; reflexivity. }
  rewrite (Hsep a Ha), (Hsep b Hb). reflexivity.
Qed.

Lemma hdr_norm_case_and_separators_witness :
  Forall2 hdr_equiv (hdr_clean ([NBSP] ++ u "gpn_Id ")) (hdr_clean (u "GPN-iD")) /\
  hdr_norm ([NBSP] ++ u "gpn_Id ") = hdr_norm (u "GPN-iD").
Proof.
  assert (H : Forall2 hdr_equiv (hdr_clean ([NBSP] ++ u "gpn_Id ")) (hdr_clean (u "GPN-iD"))).
  { vm_compute.
    repeat constructor; unfold hdr_equiv; cbn [lower_cp ascii_case];
      first [left; vm_compute; reflexivity | right; split; simpl; tauto]. }
  split; [exact H|].
  apply hdr_norm_case_and_separators;
    [vm_compute; repeat split | exact H
    | intros Hs; vm_compute in Hs; repeat (destruct Hs as [Hs|Hs]; [discriminate|]); exact Hs
    | intros Hs; vm_compute in Hs; repeat (destruct Hs as [Hs|Hs]; [discriminate|]); exact Hs].
Defined.

(* ------------------------------------------------------------------ *)
(** ** Claim C5: column resolution *)

Lemma dict_get_set {V} : forall (d : dict V) k v k',
  dict_get (dict_set d k v) k' = if ustr_eqb k k' then Some v else dict_get d k'.
Proof.
  induction d as [|[k0 v0] d IH]; intros k v k'; simpl; [destruct (ustr_eqb k k'); reflexivity|].
  destruct (ustr_eqb k0 k) eqn:E0.
  - apply ustr_eqb_eq in E0. subst k0. simpl. destruct (ustr_eqb k k'); reflexivity.
  - simpl. rewrite IH. destruct (ustr_eqb k0 k') eqn:E1, (ustr_eqb k k') eqn:E2; try reflexivity.
    apply ustr_eqb_eq in E1, E2. subst. rewrite ustr_eqb_refl in E0. discriminate.
Qed.

Section ColumnFacts.
Context {UC : UnicodeCase}.

Lemma norm_map_get : forall cols d k,
  dict_get (fold_left (fun d c => dict_set d (hdr_norm c) c) cols d) k
  = match last_match cols k with Some c => Some c | None => dict_get d k end.
Proof.
  induction cols as [|c cs IH]; intros d k; simpl; [reflexivity|].
  rewrite IH, dict_get_set. destruct (last_match cs k); [reflexivity|].
  destruct (ustr_eqb (hdr_norm c) k); reflexivity.
Qed.

Lemma last_match_none : forall cols k,
  Forall (fun c => hdr_norm c <> k) cols -> last_match cols k = None.
Proof.
  induction cols as [|c cs IH]; intros k H; simpl; [reflexivity|].
  inversion H as [|? ? Hc Hcs]; subst. rewrite IH by exact Hcs.
  destruct (ustr_eqb (hdr_norm c) k) eqn:E; [apply ustr_eqb_eq in E; contradiction|reflexivity].
Qed.

Lemma last_match_some : forall cols k c, last_match cols k = Some c ->
  exists pre post, cols = pre ++ c :: post /\ hdr_norm c = k /\
                   Forall (fun d => hdr_norm d <> k) post.
Proof.
  induction cols as [|c0 cs IH]; intros k c H; simpl in H; [discriminate|].
  destruct (last_match cs k) as [d|] eqn:E.
  - inversion H; subst d. destruct (IH k c E) as [pre [post [-> [Hk Hp]]]].
    exists (c0 :: pre), post. auto.
  - destruct (ustr_eqb (hdr_norm c0) k) eqn:Ek; [|discriminate].
    inversion H; subst c0. apply ustr_eqb_eq in Ek.
    exists [], cs. split; [reflexivity|]. split; [exact Ek|].
    rewrite Forall_forall. intros d Hd Hdk.
    assert (Hex : exists d, In d cs /\ hdr_norm d = k) by eauto.
    clear -E Hex. induction cs as [|d cs IHc]; destruct Hex as [d' [Hin Hd']]; [destruct Hin|].
    simpl in E. destruct (last_match cs k) eqn:E'; [discriminate|].
    destruct Hin as [<- | Hin].
    + rewrite Hd', ustr_eqb_refl in E. discriminate.
    + apply IHc; eauto.
Qed.

Lemma norm_map_lookup : forall cols k, dict_get (norm_map cols) k = last_match cols k.
Proof. intros cols k. unfold norm_map. rewrite norm_map_get. destruct (last_match cols k); reflexivity. Qed.

Lemma no_match_none : forall cols p, ~ column_matches cols p ->
  dict_get (norm_map cols) (hdr_norm p) = None.
Proof.
  intros cols p H. rewrite norm_map_lookup. apply last_match_none.
  unfold column_matches in H. rewrite <- Forall_Exists_neg in H. exact H.
Qed.

End ColumnFacts.

(** C5 (as stated) fails: when two columns share a normalised label, the
    dictionary [norm_map] keeps the last one, so the label returned is not
    the first matching column. *)
Lemma coalesce_columns_last_duplicate :
  hdr_norm (u "GPN") = hdr_norm (u "gpn") /\
  coalesce_columns [u "GPN"; u "gpn"] (u "GPN") [] = inr (u "gpn").
Proof. split; vm_compute; reflexivity. Qed.

(** C5 (amended): candidates are tried in order ([primary] first); for the
    first candidate matched by some column, the result is the LAST column
    (in table order) with that normalised label, whatever later candidates
    would match; when no candidate matches, the [KeyError] carries all the
    candidates tried and all the column labels. *)
Theorem coalesce_columns_spec {UC : UnicodeCase} (cols : list ustr) (primary : ustr)
    (alternates : list ustr) :
  (forall prefix cand rest,
      primary :: alternates = prefix ++ cand :: rest ->
      Forall (fun p => ~ column_matches cols p) prefix ->
      column_matches cols cand ->
      exists pre c post,
        coalesce_columns cols primary alternates = inr c /\
        cols = pre ++ c :: post /\ hdr_norm c = hdr_norm cand /\
        Forall (fun d => hdr_norm d <> hdr_norm cand) post) /\
  (Forall (fun p => ~ column_matches cols p) (primary :: alternates) ->
      coalesce_columns cols primary alternates
      = inl {| tried := primary :: alternates; available := cols |}).
Proof.
  split.
  - intros prefix cand rest Hsplit Hpre Hcand. unfold coalesce_columns. rewrite Hsplit.
    assert (Hl : exists c, last_match cols (hdr_norm cand) = Some c).
    { destruct (last_match cols (hdr_norm cand)) as [c|] eqn:E; [eauto|].
      exfalso. unfold column_matches in Hcand. apply Exists_exists in Hcand.
      destruct Hcand as [d [Hin Hd]].
      enough (Hall : Forall (fun c => hdr_norm c <> hdr_norm cand) cols)
        by (rewrite Forall_forall in Hall; exact (Hall d Hin Hd)).
      clear -E. induction cols as [|c cs IH]; constructor; simpl in E;
        destruct (last_match cs (hdr_norm cand)); try discriminate.
      + intros Hc. rewrite Hc, ustr_eqb_refl in E. discriminate.
      + apply IH. reflexivity. }
    destruct Hl as [c Hc]. destruct (last_match_some _ _ _ Hc) as [pre [post [Hcols [Hk Hpost]]]].
    exists pre, c, post. split; [|auto].
    enough (Ht : try_candidates (norm_map cols) (prefix ++ cand :: rest) = Some c)
      by (rewrite Ht; reflexivity).
    clear Hsplit. induction prefix as [|p prefix IH]; simpl.
    + rewrite norm_map_lookup, Hc. reflexivity.
    + inversion Hpre as [|? ? Hp Hps]; subst. rewrite (no_match_none _ _ Hp). apply IH, Hps.
  - intros Hall. unfold coalesce_columns.
    enough (Ht : try_candidates (norm_map cols) (primary :: alternates) = None)
      by (rewrite Ht; reflexivity).
    induction Hall as [|p ps Hp _ IH]; simpl; [reflexivity|].
    rewrite (no_match_none _ _ Hp). exact IH.
Qed.

Lemma coalesce_columns_spec_witness :
  exists pre c post,
    coalesce_columns [u "GPN"; u "GPN ID"] (u "GPN") [u "GPN ID"] = inr c /\
    [u "GPN"; u "GPN ID"] = pre ++ c :: post /\ hdr_norm c = hdr_norm (u "GPN") /\
    Forall (fun d => hdr_norm d <> hdr_norm (u "GPN")) post.
Proof.
  apply (proj1 (coalesce_columns_spec [u "GPN"; u "GPN ID"] (u "GPN") [u "GPN ID"])
           [] (u "GPN") [u "GPN ID"]).
  - reflexivity.
  - constructor.
  - unfold column_matches. apply Exists_cons_hd. reflexivity.
Defined.

(* ------------------------------------------------------------------ *)
(** ** Claim C6: filtering *)

Lemma mem_In : forall x xs, mem x xs = true <-> In x xs.
Proof.
  intros x xs. unfold mem. rewrite existsb_exists. split.
  - intros [y [Hy E]]. apply ustr_eqb_eq in E. subst. exact Hy.
  - intros H. exists x. split; [exact H|apply ustr_eqb_refl].
Qed.

(** C6: [apply_filters] keeps, in input order, exactly the rows whose
    normalised status is among the case-folded selected statuses (any
    status when none is selected) and likewise for the cycle; with both
    selections empty the table is returned whole, and a non-empty
    selection none of whose values occurs among the normalised values of
    the table leaves no row. *)
Theorem apply_filters_spec {UC : UnicodeCase} (df : list Row) (col_status col_cycle : ustr)
    (sel_status sel_cycle : list ustr) :
  let kept := apply_filters df col_status col_cycle sel_status sel_cycle in
  let ok_s row := sel_status = [] \/ In (norm_field col_status row) (map casefold sel_status) in
  let ok_c row := sel_cycle = [] \/ In (norm_field col_cycle row) (map casefold sel_cycle) in
  (exists keep : Row -> bool, kept = filter keep df /\
     forall row, keep row = true <-> ok_s row /\ ok_c row) /\
  (forall row, In row kept <-> In row df /\ ok_s row /\ ok_c row) /\
  (sel_status = [] -> sel_cycle = [] -> kept = df /\ List.length kept = List.length df) /\
  (sel_status <> [] ->
     Forall (fun row => ~ In (norm_field col_status row) (map casefold sel_status)) df ->
     kept = []) /\
  (sel_cycle <> [] ->
     Forall (fun row => ~ In (norm_field col_cycle row) (map casefold sel_cycle)) df ->
     kept = []).
Proof.
  cbv zeta.
  set (keep := fun row =>
         (match sel_status with [] => true | _ => mem (norm_field col_status row) (map casefold sel_status) end)
         && (match sel_cycle with [] => true | _ => mem (norm_field col_cycle row) (map casefold sel_cycle) end)).
  assert (Hk : apply_filters df col_status col_cycle sel_status sel_cycle = filter keep df).
  { unfold apply_filters, keep, norm_field. destruct sel_status, sel_cycle; reflexivity. }
  assert (Hkeep : forall row, keep row = true <->
            (sel_status = [] \/ In (norm_field col_status row) (map casefold sel_status)) /\
            (sel_cycle = [] \/ In (norm_field col_cycle row) (map casefold sel_cycle))).
  { intros row. unfold keep. rewrite andb_true_iff.
    destruct sel_status as [|s ss], sel_cycle as [|c cs]; rewrite ?mem_In;
      split; intros [H1 H2]; split; auto;
      repeat match goal with
             | H : _ \/ _ |- _ => destruct H as [H|H]; [discriminate|]
             end; auto. }
  rewrite Hk. clear Hk. split; [exists keep; split; [reflexivity|exact Hkeep]|].
  split; [intros row; rewrite filter_In, Hkeep; tauto|].
  split; [intros -> ->; rewrite filter_true by (intros; reflexivity); split; reflexivity|].
  split.
  - intros Hne Hall. induction Hall as [|row rows' Hrow _ IH]; [reflexivity|].
    simpl. destruct (keep row) eqn:E; [|exact IH].
    apply Hkeep in E. destruct E as [[E|E] _]; contradiction.
  - intros Hne Hall. induction Hall as [|row rows' Hrow _ IH]; [reflexivity|].
    simpl. destruct (keep row) eqn:E; [|exact IH].
    apply Hkeep in E. destruct E as [_ [E|E]]; contradiction.
Qed.

Lemma apply_filters_spec_witness :
  [u "Rejected"] <> [] /\
  Forall (fun row => ~ In (norm_field (u "Status") row) (map casefold [u "Rejected"]))
    (rows two_row_roster) /\
  apply_filters (rows two_row_roster) (u "Status") (u "Completion-Cycle") [u "Rejected"] [] = [].
Proof.
  assert (Hne : [u "Rejected"] <> []) by discriminate.
  assert (Hall : Forall (fun row => ~ In (norm_field (u "Status") row) (map casefold [u "Rejected"]))
                   (rows two_row_roster)).
  { repeat constructor; vm_compute; intros [H|[]]; discriminate H. }
  split; [exact Hne|]. split; [exact Hall|].
  exact (proj1 (proj2 (proj2 (proj2 (apply_filters_spec (rows two_row_roster) (u "Status")
           (u "Completion-Cycle") [u "Rejected"] [])))) Hne Hall).
Defined.

(* ------------------------------------------------------------------ *)
(** ** Claim C7: exception classification *)

Section ExceptionFacts.
Context {UC : UnicodeCase}.

Lemma row_reasons_triggered : forall cg cn cs cc row,
  row_reasons cg cn cs cc row = triggered cg cn cs cc row.
Proof.
  intros. unfold row_reasons, triggered, reason_table, norm_field. cbv zeta.
  repeat match goal with |- context [if ?b then _ else _] => destruct b end; reflexivity.
Qed.

Lemma triggered_names : forall cg cn cs cc row,
  Forall (fun p => p <> []) (triggered cg cn cs cc row).
Proof.
  intros. apply Forall_forall. intros p Hp.
  apply in_map_iff in Hp. destruct Hp as [[n b] [<- Hin]].
  apply filter_In in Hin. destruct Hin as [Hin _]. unfold reason_table in Hin. cbv zeta in Hin.
  repeat (destruct Hin as [Hin|Hin]; [inversion Hin; subst; vm_compute; discriminate|]).
  destruct Hin.
Qed.

Lemma join_nonempty : forall sep rs, Forall (fun p => p <> []) rs -> rs <> [] -> join sep rs <> [].
Proof.
  intros sep [|p [|q t]] Hf Hne; [contradiction| |]; inversion Hf; subst; simpl; [assumption|].
  intros E. apply app_eq_nil in E. tauto.
Qed.

Lemma compute_exceptions_from : forall cg cn cs cc df k,
  filter (fun o => negb (ustr_eqb (snd o) []))
    (combine (combine (seq k (List.length df)) df)
             (map (fun row => join (u ", ") (row_reasons cg cn cs cc row)) df))
  = flat_map (fun ir => match triggered cg cn cs cc (snd ir) with
                        | [] => []
                        | rs => [(fst ir, snd ir, join (u ", ") rs)]
                        end)
             (combine (seq k (List.length df)) df).
Proof.
  intros cg cn cs cc df. induction df as [|row df IH]; intros k; [reflexivity|].
  simpl. rewrite row_reasons_triggered, IH.
  pose proof (triggered_names cg cn cs cc row) as Hn.
  destruct (triggered cg cn cs cc row) as [|p t] eqn:E; [reflexivity|].
  assert (Hj : ustr_eqb (join (u ", ") (p :: t)) [] = false).
  { apply ustr_eqb_neq, join_nonempty; [exact Hn|discriminate]. }
  rewrite Hj. reflexivity.
Qed.

End ExceptionFacts.

(** C7: [compute_exceptions] returns, in row order, exactly the rows that
    trigger at least one of the six rules, each with its position and the
    names of the rules it triggers, in the fixed order Blank Status,
    Invalid Status, Blank Completion-Cycle, Invalid Completion-Cycle, Blank
    GPN, Blank Name, joined by [", "]; no returned reason is empty. *)
Theorem compute_exceptions_spec {UC : UnicodeCase} (df : list Row)
    (col_gpn col_name col_status col_cycle : ustr) :
  compute_exceptions df col_gpn col_name col_status col_cycle
  = exceptions_spec df col_gpn col_name col_status col_cycle /\
  Forall (fun o => snd o <> []) (compute_exceptions df col_gpn col_name col_status col_cycle).
Proof.
  assert (E : compute_exceptions df col_gpn col_name col_status col_cycle
              = exceptions_spec df col_gpn col_name col_status col_cycle)
    by (apply compute_exceptions_from).
  split; [exact E|]. apply Forall_forall. intros o Ho.
  unfold compute_exceptions in Ho. apply filter_In in Ho. destruct Ho as [_ Ho].
  destruct o as [ir rs]. simpl in *. intros ->. discriminate Ho.
Qed.

(** The spec's example: statuses [""], ["Completed"], ["Bogus"], everything
    else valid, give reasons for rows 1 and 3 only. *)
Lemma compute_exceptions_status_example :
  compute_exceptions
    [roster_row "G1" "Ann" "" "FY26-Q2(Oct-Dec)";
     roster_row "G2" "Ben" "Completed" "FY26-Q2(Oct-Dec)";
     roster_row "G3" "Cy" "Bogus" "FY26-Q2(Oct-Dec)"]
    (u "GPN") (u "Name") (u "Status") (u "Completion-Cycle")
  = [(0, roster_row "G1" "Ann" "" "FY26-Q2(Oct-Dec)", u "Blank Status");
     (2, roster_row "G3" "Cy" "Bogus" "FY26-Q2(Oct-Dec)", u "Invalid Status")].
Proof. vm_compute. reflexivity. Qed.

(* ------------------------------------------------------------------ *)
(** ** Claim C9: nothing is resolved or sent when there is nothing to notify *)

(** C9: once the roster's columns are resolved, if deduplication leaves no
    row, [main] ends with [sys.exit(0)] after reporting no match, without
    building the contact map, resolving a contact or composing a message;
    and [perform_action_with_emails] composes and sends nothing when its
    cleaned recipient list is empty. *)
Theorem main_stops_when_nothing_to_notify {UC : UnicodeCase} (df : Table)
    (sel_status sel_cycle : list ustr) (dfm : Table) (email_cfg : option (ustr * ustr))
    (cg cn cs cc : ustr)
    (Hg : coalesce_columns (columns df) DEFAULT_gpn_id [u "GPNID"; u "GPN Id"; u "GPN_Id"; u "GPN ID"] = inr cg)
    (Hn : coalesce_columns (columns df) DEFAULT_name [u "Employee Name"; u "Full Name"] = inr cn)
    (Hs : coalesce_columns (columns df) DEFAULT_status [u "Status"] = inr cs)
    (Hc : coalesce_columns (columns df) DEFAULT_cycle [u "Completion Cycle"; u "CompletionCycle"] = inr cc)
    (Hempty : build_unique_gpn (apply_filters (rows df) cs cc sel_status sel_cycle) cg cn = []) :
  let run := main_run df sel_status sel_cycle dfm email_cfg in
  snd run = SysExit 0 /\
  In EvNoRowsMatched (fst run) /\
  ~ In EvBuildContactMap (fst run) /\
  (forall g n e, ~ In (EvContact g n e) (fst run)) /\
  (forall r s b, ~ In (EvCompose r s b) (fst run)) /\
  (forall emails subject body display send_ok,
      clean_emails [] emails = [] ->
      perform_action_with_emails emails subject body display send_ok = ([EvNoValidEmails], Finished)).
Proof.
  cbv zeta. unfold main_run. cbv zeta. rewrite Hg, Hn, Hs, Hc. rewrite Hempty.
  assert (Hd : forall emails subject body display send_ok,
             clean_emails [] emails = [] ->
             perform_action_with_emails emails subject body display send_ok = ([EvNoValidEmails], Finished)).
  { intros emails subject body display send_ok H. unfold perform_action_with_emails. rewrite H. reflexivity. }
  destruct (compute_exceptions (rows df) cg cn cs cc); simpl;
    (split; [reflexivity|]); (split; [tauto|]);
    (split; [intuition discriminate|]);
    (split; [intros ? ? ?; intuition discriminate|]);
    (split; [intros ? ? ?; intuition discriminate|]);
    exact Hd.
Qed.

Lemma main_stops_when_nothing_to_notify_witness :
  snd (main_run two_row_roster [u "Rejected"] [] (contact_table []) None) = SysExit 0.
Proof.
  refine (proj1 (main_stops_when_nothing_to_notify two_row_roster [u "Rejected"] []
                   (contact_table []) None (u "GPN") (u "Name") (u "Status") (u "Completion-Cycle")
                   _ _ _ _ _)); vm_compute; reflexivity.
Defined.

(* ------------------------------------------------------------------ *)
(** ** Claim C8: the contact map *)

Section StableSort.
Context {A : Type} (le : A -> A -> bool).

Lemma insert_by_In : forall x s y, In y (insert_by le x s) <-> y = x \/ In y s.
Proof.
  intros x s y. induction s as [|z s IH]; simpl; [intuition congruence|].
  destruct (le x z); simpl; [intuition congruence|]. rewrite IH. intuition congruence.
Qed.

Lemma stable_sort_In : forall l y, In y (stable_sort le l) <-> In y l.
Proof.
  induction l as [|x l IH]; intros y; simpl; [tauto|].
  rewrite insert_by_In, IH. intuition congruence.
Qed.

Lemma filter_insert_by : forall q x s,
  (forall y, In y s -> q x = true -> q y = true -> le x y = true) ->
  filter q (insert_by le x s) = if q x then x :: filter q s else filter q s.
Proof.
  intros q x s. induction s as [|y s IH]; intros H; simpl; [reflexivity|].
  assert (IH' := IH (fun z Hz => H z (or_intror Hz))). clear IH.
  destruct (le x y) eqn:Exy; simpl.
  - reflexivity.
  - rewrite IH'. destruct (q y) eqn:Ey, (q x) eqn:Ex; try reflexivity.
    rewrite H in Exy by (simpl; auto). discriminate.
Qed.

(** Stability: the elements of a class that [le] does not order among
    themselves keep their input order. *)
Lemma filter_stable_sort : forall q l,
  (forall x y, In x l -> In y l -> q x = true -> q y = true -> le x y = true) ->
  filter q (stable_sort le l) = filter q l.
Proof.
  intros q l. induction l as [|x l IH]; intros H; simpl; [reflexivity|].
  rewrite filter_insert_by.
  - rewrite IH by (intros; apply H; simpl; auto). reflexivity.
  - intros y Hy. apply H; simpl; auto. right. apply stable_sort_In, Hy.
Qed.

Hypothesis le_total : forall x y, le x y = false -> le y x = true.

Lemma insert_by_sorted : forall x s,
  Sorted (fun a b => le a b = true) s -> Sorted (fun a b => le a b = true) (insert_by le x s).
Proof.
  intros x s. induction s as [|y s IH]; intros Hs; simpl; [repeat constructor|].
  destruct (le x y) eqn:Exy.
  - constructor; [exact Hs|constructor; exact Exy].
  - apply Sorted_inv in Hs as [Hs Hy]. constructor; [apply IH, Hs|].
    destruct s as [|z s]; simpl; [constructor; apply le_total, Exy|].
    destruct (le x z); constructor; [apply le_total, Exy|inversion Hy; assumption].
Qed.

Lemma stable_sort_sorted : forall l, Sorted (fun a b => le a b = true) (stable_sort le l).
Proof. induction l as [|x l IH]; simpl; [constructor|apply insert_by_sorted, IH]. Qed.

End StableSort.

Lemma find_filter_hd {A} : forall (f : A -> bool) l, find f l = hd_error (filter f l).
Proof. intros f l. induction l as [|x l IH]; simpl; [reflexivity|]. destruct (f x); auto. Qed.

Lemma find_map {A B} : forall (f : B -> bool) (g : A -> B) l,
  find f (map g l) = option_map g (find (fun x => f (g x)) l).
Proof. intros f g l. induction l as [|x l IH]; simpl; [reflexivity|]. destruct (f (g x)); auto. Qed.

Lemma find_filter_implied {A} : forall (f h : A -> bool) l,
  (forall x, f x = true -> h x = true) -> find f (filter h l) = find f l.
Proof.
  intros f h l Hfh. induction l as [|x l IH]; simpl; [reflexivity|].
  destruct (h x) eqn:Eh; simpl; destruct (f x) eqn:Ef; auto.
  rewrite Hfh in Eh by exact Ef. discriminate.
Qed.

Lemma find_ext {A} : forall (f g : A -> bool) l,
  (forall x, f x = g x) -> find f l = find g l.
Proof. intros f g l H. induction l as [|x l IH]; simpl; [reflexivity|]. rewrite H, IH. reflexivity. Qed.

Lemma find_all_false {A} : forall (f : A -> bool) l,
  (forall x, In x l -> f x = false) -> find f l = None.
Proof.
  intros f l H. induction l as [|x l IH]; simpl; [reflexivity|].
  rewrite H by (left; reflexivity). apply IH. intros y Hy. apply H. right. exact Hy.
Qed.

Lemma ustr_eqb_sym : forall a b, ustr_eqb a b = ustr_eqb b a.
Proof.
  intros a b. destruct (ustr_eqb a b) eqn:E.
  - apply ustr_eqb_eq in E. subst. symmetry. apply ustr_eqb_refl.
  - apply ustr_eqb_neq in E. symmetry. apply ustr_eqb_neq. congruence.
Qed.

Lemma ustr_compare_eq_iff : forall a b, ustr_compare a b = Eq <-> a = b.
Proof.
  induction a as [|x a IH]; intros [|y b]; simpl; try (split; congruence).
  split.
  - destruct (N.compare x y) eqn:E; try discriminate.
    apply N.compare_eq_iff in E. intros H. apply IH in H. subst. reflexivity.
  - intros H. injection H as -> ->. rewrite N.compare_refl. apply IH. reflexivity.
Qed.

Lemma ustr_compare_refl : forall a, ustr_compare a a = Eq.
Proof. intros a. apply ustr_compare_eq_iff. reflexivity. Qed.

Lemma ustr_compare_antisym : forall a b, ustr_compare b a = CompOpp (ustr_compare a b).
Proof.
  induction a as [|x a IH]; intros [|y b]; simpl; try reflexivity.
  rewrite (N.compare_antisym x y). destruct (N.compare x y); simpl; auto.
Qed.

Lemma ustr_compare_lt_trans : forall a b c,
  ustr_compare a b = Lt -> ustr_compare b c = Lt -> ustr_compare a c = Lt.
Proof.
  induction a as [|x a IH]; intros [|y b] [|z c]; simpl; try discriminate; auto.
  destruct (N.compare_spec x y) as [Exy|Exy|Exy];
    destruct (N.compare_spec y z) as [Eyz|Eyz|Eyz]; intros H1 H2; try discriminate; subst.
  - rewrite N.compare_refl. eauto.
  - rewrite (proj2 (N.compare_lt_iff _ _) Eyz). reflexivity.
  - rewrite (proj2 (N.compare_lt_iff _ _) Exy). reflexivity.
  - rewrite (proj2 (N.compare_lt_iff x z)) by lia. reflexivity.
Qed.

Lemma gpn_blank_le_total : forall x y, gpn_blank_le x y = false -> gpn_blank_le y x = true.
Proof.
  intros [[gx ex] bx] [[gy ey] b2]. unfold gpn_blank_le. simpl.
  rewrite (ustr_compare_antisym gx gy).
  destruct (ustr_compare gx gy) eqn:E; simpl; try discriminate; auto.
  apply ustr_compare_eq_iff in E. subst. destruct bx, b2; simpl; congruence.
Qed.

Lemma gpn_blank_le_trans : forall x y z,
  gpn_blank_le x y = true -> gpn_blank_le y z = true -> gpn_blank_le x z = true.
Proof.
  intros [[gx ex] b1] [[gy ey] b2] [[gz ez] b3]. unfold gpn_blank_le. simpl.
  destruct (ustr_compare gx gy) eqn:E1; try discriminate;
    destruct (ustr_compare gy gz) eqn:E2; try discriminate; intros H1 H2.
  - apply ustr_compare_eq_iff in E1, E2. subst. rewrite ustr_compare_refl.
    destruct b1, b2, b3; simpl in *; congruence.
  - apply ustr_compare_eq_iff in E1. subst. rewrite E2. reflexivity.
  - apply ustr_compare_eq_iff in E2. subst. rewrite E1. reflexivity.
  - rewrite (ustr_compare_lt_trans gx gy gz E1 E2). reflexivity.
Qed.

Lemma stable_sort_gpn_blank_strongly_sorted : forall l,
  StronglySorted (fun a b => gpn_blank_le a b = true) (stable_sort gpn_blank_le l).
Proof.
  intros l. apply Sorted_StronglySorted.
  - intros x y z. apply gpn_blank_le_trans.
  - apply stable_sort_sorted, gpn_blank_le_total.
Qed.

(** In a sorted list the first row of an identifier has a non-blank
    contact whenever one of that identifier's rows has one. *)
Lemma find_sorted_nonblank : forall k s,
  StronglySorted (fun a b => gpn_blank_le a b = true) s ->
  (exists z, In z s /\ ustr_eqb (fst (fst z)) k && negb (snd z) = true) ->
  find (fun t => ustr_eqb (fst (fst t)) k) s
  = find (fun t => ustr_eqb (fst (fst t)) k && negb (snd t)) s.
Proof.
  intros k s. induction s as [|x s IH]; intros Hs [z [Hz HQz]]; [destruct Hz|].
  apply StronglySorted_inv in Hs as [Hs Hall]. simpl.
  destruct (ustr_eqb (fst (fst x)) k) eqn:EP; simpl.
  - destruct (snd x) eqn:Eb; simpl; [|reflexivity]. exfalso.
    destruct Hz as [<-|Hz]; [rewrite EP, Eb in HQz; discriminate|].
    rewrite Forall_forall in Hall. specialize (Hall z Hz).
    apply andb_true_iff in HQz as [HPz HBz].
    apply ustr_eqb_eq in EP, HPz. destruct x as [[gx ex] bx], z as [[gz ez] bz].
    simpl in *. subst. unfold gpn_blank_le in Hall. simpl in Hall.
    rewrite ustr_compare_refl in Hall. destruct bz; discriminate.
  - apply IH; [exact Hs|]. exists z. split; [|exact HQz].
    destruct Hz as [<-|Hz]; [rewrite EP in HQz; discriminate|exact Hz].
Qed.

Lemma find_stable_sort_gpn_blank : forall k l,
  find (fun t => ustr_eqb (fst (fst t)) k) (stable_sort gpn_blank_le l)
  = match find (fun t => ustr_eqb (fst (fst t)) k && negb (snd t)) l with
    | Some t => Some t
    | None => find (fun t => ustr_eqb (fst (fst t)) k) l
    end.
Proof.
  intros k l.
  destruct (find (fun t => ustr_eqb (fst (fst t)) k && negb (snd t)) l) eqn:EQ.
  - apply find_some in EQ as EQ'. destruct EQ' as [Hin HQ].
    rewrite find_sorted_nonblank.
    + rewrite find_filter_hd, filter_stable_sort, <- find_filter_hd; [exact EQ|].
      intros [[gx ex] bx] [[gy ey] b2] _ _ Hx Hy. simpl in *.
      apply andb_true_iff in Hx as [Hx Hbx], Hy as [Hy Hby].
      apply ustr_eqb_eq in Hx, Hy. subst. unfold gpn_blank_le. simpl.
      rewrite ustr_compare_refl. destruct bx, b2; simpl in *; congruence.
    + apply stable_sort_gpn_blank_strongly_sorted.
    + exists p. split; [apply stable_sort_In, Hin|exact HQ].
  - rewrite find_filter_hd, filter_stable_sort, <- find_filter_hd; [reflexivity|].
    intros [[gx ex] bx] [[gy ey] b2] Hinx Hiny Hx Hy.
    assert (Nx := find_none _ _ EQ _ Hinx). assert (Ny := find_none _ _ EQ _ Hiny).
    simpl in *. rewrite Hx in Nx. rewrite Hy in Ny.
    apply ustr_eqb_eq in Hx, Hy. subst. unfold gpn_blank_le. simpl.
    rewrite ustr_compare_refl. destruct bx, b2; simpl in *; congruence.
Qed.

Section DropDuplicates.
Context {A : Type} (key : A -> ustr).

Lemma drop_duplicates_find : forall seen l k,
  existsb (ustr_eqb k) seen = false ->
  find (fun t => ustr_eqb (key t) k) (drop_duplicates_first ustr_eqb key seen l)
  = find (fun t => ustr_eqb (key t) k) l.
Proof.
  intros seen l. revert seen. induction l as [|x l IH]; intros seen k Hk; simpl; [reflexivity|].
  destruct (existsb (ustr_eqb (key x)) seen) eqn:Ex.
  - rewrite IH by exact Hk. destruct (ustr_eqb (key x) k) eqn:Ek; [|reflexivity].
    apply ustr_eqb_eq in Ek. subst. congruence.
  - simpl. destruct (ustr_eqb (key x) k) eqn:Ek; [reflexivity|].
    apply IH. simpl. rewrite ustr_eqb_sym, Ek. exact Hk.
Qed.

Lemma drop_duplicates_nodup : forall seen l,
  NoDup (map key (drop_duplicates_first ustr_eqb key seen l)) /\
  (forall x, In x (drop_duplicates_first ustr_eqb key seen l) ->
             existsb (ustr_eqb (key x)) seen = false).
Proof.
  intros seen l. revert seen. induction l as [|x l IH]; intros seen; simpl.
  - split; [constructor|intros _ []].
  - destruct (existsb (ustr_eqb (key x)) seen) eqn:Ex; [apply IH|].
    destruct (IH (key x :: seen)) as [Hnd Hfresh]. split.
    + simpl. constructor; [|exact Hnd].
      intros Hin. apply in_map_iff in Hin as [y [Hy Hin]].
      specialize (Hfresh y Hin). simpl in Hfresh. rewrite Hy, ustr_eqb_refl in Hfresh.
      discriminate.
    + intros y [<-|Hy]; [exact Ex|].
      specialize (Hfresh y Hy). simpl in Hfresh. apply orb_false_iff in Hfresh as [_ H].
      exact H.
Qed.

Lemma drop_duplicates_incl : forall seen l x,
  In x (drop_duplicates_first ustr_eqb key seen l) -> In x l.
Proof.
  intros seen l. revert seen. induction l as [|y l IH]; intros seen x; simpl; [tauto|].
  destruct (existsb (ustr_eqb (key y)) seen); [eauto|].
  intros [<-|Hx]; [left; reflexivity|right; eauto].
Qed.

End DropDuplicates.

Lemma dict_set_fresh {V} : forall (d : dict V) k v,
  ~ In k (map fst d) -> dict_set d k v = d ++ [(k, v)].
Proof.
  induction d as [|[k0 v0] d IH]; intros k v Hk; simpl; [reflexivity|].
  simpl in Hk. destruct (ustr_eqb k0 k) eqn:E.
  - apply ustr_eqb_eq in E. tauto.
  - rewrite IH by tauto. reflexivity.
Qed.

Lemma fold_dict_set_fresh {V} : forall (kvs : list (ustr * V)) d,
  NoDup (map fst (d ++ kvs)) ->
  fold_left (fun d kv => dict_set d (fst kv) (snd kv)) kvs d = d ++ kvs.
Proof.
  induction kvs as [|[k v] kvs IH]; intros d Hnd; simpl; [symmetry; apply app_nil_r|].
  rewrite map_app in Hnd. simpl in Hnd.
  rewrite dict_set_fresh.
  - rewrite IH; [rewrite <- app_assoc; reflexivity|].
    rewrite <- app_assoc, map_app. exact Hnd.
  - intros Hin. apply (NoDup_remove_2 _ _ _ Hnd). apply in_or_app. left. exact Hin.
Qed.

(** With distinct keys, [dict(zip(keys, values))] keeps every pair in order. *)
Lemma dict_of_nodup {V} : forall (kvs : list (ustr * V)),
  NoDup (map fst kvs) -> dict_of kvs = kvs.
Proof. intros kvs H. apply (fold_dict_set_fresh kvs []). exact H. Qed.

Lemma dict_get_find {V} : forall (d : dict V) k,
  dict_get d k = option_map snd (find (fun kv => ustr_eqb (fst kv) k) d).
Proof.
  induction d as [|[k0 v0] d IH]; intros k; simpl; [reflexivity|].
  destruct (ustr_eqb k0 k); [reflexivity|apply IH].
Qed.

Lemma find_key_none {V} : forall (l : list (ustr * V)) k,
  find (fun p => ustr_eqb (fst p) k) l = None <-> ~ In k (map fst l).
Proof.
  induction l as [|[k0 v0] l IH]; intros k; simpl; [tauto|].
  destruct (ustr_eqb k0 k) eqn:E.
  - apply ustr_eqb_eq in E. split; [discriminate|tauto].
  - apply ustr_eqb_neq in E. rewrite IH. tauto.
Qed.

Section EmailMap.
Context {UC : UnicodeCase}.

Lemma email_map_of_unfold : forall dfm cg ce,
  let kept := filter (fun p => negb (ustr_eqb (fst p) [])) (contact_pairs cg ce dfm) in
  let dedup := drop_duplicates_first ustr_eqb (fun t => fst (fst t)) []
                 (stable_sort gpn_blank_le
                    (map (fun p => (fst p, snd p, ustr_eqb (snd p) [])) kept)) in
  email_map_of dfm cg ce = map fst dedup /\
  NoDup (map fst (email_map_of dfm cg ce)).
Proof.
  intros dfm cg ce kept dedup.
  assert (Hnd : NoDup (map fst (map fst dedup))).
  { rewrite map_map. apply drop_duplicates_nodup. }
  assert (Heq : email_map_of dfm cg ce = map fst dedup).
  { unfold email_map_of. apply dict_of_nodup. exact Hnd. }
  split; [exact Heq|]. rewrite Heq. exact Hnd.
Qed.

Lemma email_map_of_get : forall dfm cg ce k,
  dict_get (email_map_of dfm cg ce) k =
  let kept := filter (fun p => negb (ustr_eqb (fst p) [])) (contact_pairs cg ce dfm) in
  let l := map (fun p => (fst p, snd p, ustr_eqb (snd p) [])) kept in
  option_map (fun t => snd (fst t))
    (match find (fun t => ustr_eqb (fst (fst t)) k && negb (snd t)) l with
     | Some t => Some t
     | None => find (fun t => ustr_eqb (fst (fst t)) k) l
     end).
Proof.
  intros dfm cg ce k. destruct (email_map_of_unfold dfm cg ce) as [Heq _].
  rewrite Heq, dict_get_find, find_map. simpl.
  rewrite drop_duplicates_find by reflexivity.
  rewrite find_stable_sort_gpn_blank.
  destruct (find _ _) as [t|]; [reflexivity|].
  destruct (find _ _) as [t|]; reflexivity.
Qed.

End EmailMap.

Lemma preferred_contact_none : forall pairs k,
  preferred_contact pairs k = None <-> ~ In k (map fst pairs).
Proof.
  intros pairs k. unfold preferred_contact.
  destruct (find _ pairs) as [p|] eqn:E1.
  - apply find_some in E1 as [Hin Hp]. apply andb_true_iff in Hp as [Hp _].
    apply ustr_eqb_eq in Hp. split; [discriminate|]. intros Hn. exfalso. apply Hn.
    apply in_map_iff. exists p. split; assumption.
  - rewrite <- find_key_none. destruct (find (fun p => ustr_eqb (fst p) k) pairs); split; congruence.
Qed.

Lemma preferred_contact_some : forall pairs k,
  preferred_contact pairs k <> None <-> In k (map fst pairs).
Proof.
  intros pairs k. rewrite preferred_contact_none.
  destruct (in_dec (list_eq_dec N.eq_dec) k (map fst pairs)); tauto.
Qed.

Lemma dict_get_keys {V} : forall (d : dict V) k, In k (map fst d) <-> dict_get d k <> None.
Proof.
  intros d k. rewrite dict_get_find.
  destruct (find (fun kv => ustr_eqb (fst kv) k) d) eqn:E; simpl.
  - split; [discriminate|intros _]. apply find_some in E as [Hin Hp].
    apply ustr_eqb_eq in Hp. apply in_map_iff. exists p. split; assumption.
  - apply find_key_none in E. tauto.
Qed.

Section EmailMapSpec.
Context {UC : UnicodeCase}.

Lemma email_map_of_preferred : forall dfm cg ce k, k <> [] ->
  dict_get (email_map_of dfm cg ce) k = preferred_contact (contact_pairs cg ce dfm) k.
Proof.
  intros dfm cg ce k Hk. rewrite email_map_of_get. cbv zeta. rewrite !find_map.
  rewrite !find_filter_implied.
  - simpl. unfold preferred_contact.
    destruct (find (fun p => ustr_eqb (fst p) k && negb (ustr_eqb (snd p) [])) _); [reflexivity|].
    destruct (find (fun p => ustr_eqb (fst p) k) _); reflexivity.
  - intros [g e] H. simpl in *. apply ustr_eqb_eq in H. subst.
    apply negb_true_iff, ustr_eqb_neq. exact Hk.
  - intros [g e] H. simpl in *. apply andb_true_iff in H as [H _]. apply ustr_eqb_eq in H. subst.
    apply negb_true_iff, ustr_eqb_neq. exact Hk.
Qed.

Lemma email_map_of_empty_key : forall dfm cg ce, dict_get (email_map_of dfm cg ce) [] = None.
Proof.
  intros dfm cg ce. rewrite email_map_of_get. cbv zeta.
  rewrite !(find_all_false (fun t => ustr_eqb (fst (fst t)) [] && _)),
          (find_all_false (fun t => ustr_eqb (fst (fst t)) [])); [reflexivity| |].
  all: intros x Hx; apply in_map_iff in Hx as [[g e] [<- Hx]];
       apply filter_In in Hx as [_ Hg]; simpl in *;
       apply negb_true_iff in Hg; rewrite Hg; reflexivity.
Qed.

End EmailMapSpec.

Lemma find_app_skip {A} : forall (f : A -> bool) l1 l2,
  (forall x, In x l1 -> f x = false) -> find f (l1 ++ l2) = find f l2.
Proof.
  intros f l1 l2. induction l1 as [|x l1 IH]; intros H; [reflexivity|]. simpl.
  rewrite (H x (or_introl eq_refl)). apply IH. intros y Hy. apply H. right. exact Hy.
Qed.

Lemma email_raw_nan {UC : UnicodeCase} : email_raw None = u "nan".
Proof. reflexivity. Qed.

(** Claim C8 (code bug): a blank contact cell is read as missing ([NaN]),
    and [_EMAIL_raw] has no missing-value mapping, so it becomes the
    non-blank text "nan".  Hence when the first row of an identifier has a
    blank contact cell, the map returns "nan" for that identifier, even if
    a later row with the same identifier has a real address.  For the two
    rows ("X1", blank) and ("X1", "x1@ex.com") in this order, the map is
    {"x1": "nan"}; only in the other order is it {"x1": "x1@ex.com"}. *)
Theorem build_gpn_to_email_map_nan_contact {UC : UnicodeCase} (dfm : Table) (cg ce : ustr)
  (Hg : coalesce_columns (columns dfm) (u "GPN")
          [u "GPN ID"; u "Gpn"; u "GPN_Id"; u "GPN Id"] = inr cg)
  (He : coalesce_columns (columns dfm) (u "Email ID")
          [u "EmailID"; u "Email"; u "Email Address"; u "Mail"; u "E-mail ID"] = inr ce)
  (pre post : list Row) (row : Row)
  (Hrows : rows dfm = pre ++ row :: post)
  (Hk : clean_cell (get_cell row cg) <> [])
  (Hnan : get_cell row ce = None)
  (Hpre : Forall (fun r => clean_cell (get_cell r cg) <> clean_cell (get_cell row cg)) pre) :
  exists m, build_gpn_to_email_map dfm = inr m /\
            dict_get m (clean_cell (get_cell row cg)) = Some (u "nan").
Proof.
  exists (email_map_of (rows dfm) cg ce).
  unfold build_gpn_to_email_map. rewrite Hg, He. split; [reflexivity|].
  rewrite email_map_of_preferred by exact Hk. rewrite Hrows.
  unfold preferred_contact, contact_pairs. rewrite map_app, find_app_skip.
  - simpl. rewrite Hnan, email_raw_nan, ustr_eqb_refl. reflexivity.
  - intros [g e] Hx. apply in_map_iff in Hx as [r [Er Hr]]. injection Er as <- <-.
    rewrite Forall_forall in Hpre. specialize (Hpre r Hr).
    apply ustr_eqb_neq in Hpre. simpl. rewrite Hpre. reflexivity.
Qed.

Lemma build_gpn_to_email_map_nan_contact_witness :
  @build_gpn_to_email_map ascii_case
    (contact_table [contact_row (Some (u "X1")) None;
                    contact_row (Some (u "X1")) (Some (u "x1@ex.com"))])
    = inr [(u "x1", u "nan")] /\
  @build_gpn_to_email_map ascii_case
    (contact_table [contact_row (Some (u "X1")) (Some (u "x1@ex.com"));
                    contact_row (Some (u "X1")) None])
    = inr [(u "x1", u "x1@ex.com")] /\
  exists m, @build_gpn_to_email_map ascii_case
    (contact_table [contact_row (Some (u "X1")) None;
                    contact_row (Some (u "X1")) (Some (u "x1@ex.com"))]) = inr m /\
    dict_get m (u "x1") = Some (u "nan").
Proof.
  split; [vm_compute; reflexivity|]. split; [vm_compute; reflexivity|].
  refine (@build_gpn_to_email_map_nan_contact ascii_case
            (contact_table [contact_row (Some (u "X1")) None;
                            contact_row (Some (u "X1")) (Some (u "x1@ex.com"))])
            (u "GPN") (u "Email ID") _ _ []
            [contact_row (Some (u "X1")) (Some (u "x1@ex.com"))]
            (contact_row (Some (u "X1")) None) _ _ _ _).
  - vm_compute; reflexivity.
  - vm_compute; reflexivity.
  - reflexivity.
  - vm_compute; discriminate.
  - reflexivity.
  - constructor.
Defined.

(* ================================================================== *)
(** * Further properties of the program *)

(* ------------------------------------------------------------------ *)
(** ** [prompt_multi_select] *)






(* ------------------------------------------------------------------ *)
(** ** The shape of normalised text *)

Lemma canonical_fixed {UC : UnicodeCase} : forall s, canonical s = true ->
  strip s = s /\ collapse_ws s = s.
Proof.
  intros s Hc. split; [apply canonical_strip_id, Hc|].
  unfold collapse_ws. apply andb_true_iff in Hc as [Hg _].
  exact (gapless_collapse_id s GStart Hg).
Qed.

Lemma email_raw_canonical_aux {UC : UnicodeCase} : forall x, canonical (email_raw x) = true.
Proof.
  intros x. unfold email_raw. apply canonical_collapse_strip.
  intros c Hc. exact (replace_char_removes ZWSP _ c Hc).
Qed.

(** [_EMAIL_raw] is already stripped and whitespace-collapsed: no U+200B,
    no whitespace at either end, and whitespace only as single U+0020
    spaces; stripping or collapsing it again changes nothing. *)
Theorem email_raw_canonical {UC : UnicodeCase} (x : cell) :
  canonical (email_raw x) = true /\
  strip (email_raw x) = email_raw x /\
  collapse_ws (email_raw x) = email_raw x.
Proof.
  pose proof (email_raw_canonical_aux x) as Hc. split; [exact Hc|]. apply canonical_fixed, Hc.
Qed.

Lemma clean_cell_canonical_aux {UC : UnicodeCase} : casefold_ok -> forall x,
  canonical (clean_cell x) = true.
Proof.
  intros Hcf x. unfold clean_cell, replace_nan.
  destruct (ustr_eqb (clean_pre x) (u "nan")); [reflexivity|].
  apply canonical_casefold; [exact Hcf|]. unfold clean_pre.
  apply canonical_collapse_strip. intros c Hc. exact (replace_char_removes ZWSP _ c Hc).
Qed.

(** Every value [clean_series] produces has the same shape, and it is
    already case-folded: case-folding, stripping or collapsing it again
    changes nothing.  This holds for case mappings with the properties of
    Unicode case folding ([casefold_ok]). *)
Theorem clean_cell_canonical_form {UC : UnicodeCase} (Hcf : casefold_ok) (x : cell) :
  canonical (clean_cell x) = true /\
  casefold (clean_cell x) = clean_cell x /\
  strip (clean_cell x) = clean_cell x /\
  collapse_ws (clean_cell x) = clean_cell x.
Proof.
  pose proof (clean_cell_canonical_aux Hcf x) as Hc. split; [exact Hc|].
  split; [|apply canonical_fixed, Hc].
  unfold clean_cell. apply casefold_idem, Hcf.
Qed.

Lemma clean_cell_canonical_form_witness :
  @clean_cell ascii_case (Some ([9; 65; 160; 32; 8203; 66; 32]%N))
    = u "a b" /\
  @canonical (@clean_cell ascii_case (Some ([9; 65; 160; 32; 8203; 66; 32]%N))) = true.
Proof.
  split; [vm_compute; reflexivity|].
  exact (proj1 (@clean_cell_canonical_form ascii_case ascii_casefold_ok
                  (Some ([9; 65; 160; 32; 8203; 66; 32]%N)))).
Defined.

(* ------------------------------------------------------------------ *)
(** ** Where the contact map's entries come from *)

Lemma coalesce_columns_in {UC : UnicodeCase} : forall cols primary alternates c,
  coalesce_columns cols primary alternates = inr c -> In c cols.
Proof.
  intros cols primary alternates c. unfold coalesce_columns.
  generalize (primary :: alternates) as cands. intros cands.
  destruct (try_candidates (norm_map cols) cands) as [d|] eqn:E; [|discriminate].
  intros H. injection H as <-. induction cands as [|cand rest IH]; simpl in E; [discriminate|].
  rewrite norm_map_lookup in E. destruct (last_match cols (hdr_norm cand)) as [d'|] eqn:El.
  - injection E as <-. apply last_match_some in El as [pre [post [-> _]]].
    apply in_or_app. right. left. reflexivity.
  - apply IH, E.
Qed.

Lemma email_map_of_entries {UC : UnicodeCase} : forall dfm cg ce k v,
  In (k, v) (email_map_of dfm cg ce) ->
  k <> [] /\ exists row, In row dfm /\ clean_cell (get_cell row cg) = k /\
                         email_raw (get_cell row ce) = v.
Proof.
  intros dfm cg ce k v H. destruct (email_map_of_unfold dfm cg ce) as [Heq _].
  rewrite Heq in H. apply in_map_iff in H as [t [Ht Hin]].
  apply drop_duplicates_incl, stable_sort_In, in_map_iff in Hin as [p [Hp Hin]].
  apply filter_In in Hin as [Hin Hne]. unfold contact_pairs in Hin.
  apply in_map_iff in Hin as [row [Hr Hrow]]. subst. simpl in *.
  injection Ht as <- <-. split.
  - apply negb_true_iff, ustr_eqb_neq in Hne. exact Hne.
  - exists row. split; [exact Hrow|]. split; reflexivity.
Qed.

(** Every entry of the contact map comes from a row of the contact table:
    its key is that row's normalised identifier, never [""], and its value
    is that row's [_EMAIL_raw], an already stripped and
    whitespace-collapsed text. The two columns are columns of the table. *)
Theorem build_gpn_to_email_map_entries {UC : UnicodeCase} (dfm : Table) (m : dict ustr)
    (H : build_gpn_to_email_map dfm = inr m) :
  exists cg ce, In cg (columns dfm) /\ In ce (columns dfm) /\
    forall k v, In (k, v) m ->
      k <> [] /\ canonical v = true /\
      exists row, In row (rows dfm) /\ clean_cell (get_cell row cg) = k /\
                  email_raw (get_cell row ce) = v.
Proof.
  unfold build_gpn_to_email_map in H.
  destruct (coalesce_columns (columns dfm) (u "GPN") _) as [e|cg] eqn:Eg; [discriminate|].
  destruct (coalesce_columns (columns dfm) (u "Email ID") _) as [e|ce] eqn:Ee; [discriminate|].
  injection H as <-. exists cg, ce.
  split; [eapply coalesce_columns_in; exact Eg|]. split; [eapply coalesce_columns_in; exact Ee|].
  intros k v Hin. destruct (email_map_of_entries _ _ _ _ _ Hin) as [Hk [row [Hrow [Hg He]]]].
  split; [exact Hk|]. split; [rewrite <- He; apply email_raw_canonical_aux|].
  exists row. auto.
Qed.

Lemma build_gpn_to_email_map_entries_witness :
  exists cg ce, In cg [u "GPN"; u "Email ID"] /\ In ce [u "GPN"; u "Email ID"].
Proof.
  destruct (@build_gpn_to_email_map_entries ascii_case
              (contact_table [contact_row (Some (u " A1 ")) (Some (u " a1@ex.com "))])
              [(u "a1", u "a1@ex.com")] ltac:(vm_compute; reflexivity))
    as [cg [ce [Hg [He _]]]].
  exists cg, ce. split; assumption.
Defined.

(* ------------------------------------------------------------------ *)
(** ** The recipient list of [perform_action_with_emails] *)

Lemma mem_false : forall x xs, mem x xs = false <-> ~ In x xs.
Proof. intros x xs. rewrite <- mem_In. destruct (mem x xs); split; congruence. Qed.

Lemma clean_emails_gen {UC : UnicodeCase} : forall emails seen,
  (forall s, In s (clean_emails seen emails) ->
     strip s = s /\ s <> [] /\ ~ In (lower s) seen /\ exists e, In e emails /\ s = strip e) /\
  NoDup (map lower (clean_emails seen emails)) /\
  (forall e, In e emails -> strip e <> [] ->
     In (lower (strip e)) seen \/ In (lower (strip e)) (map lower (clean_emails seen emails))).
Proof.
  induction emails as [|e rest IH]; intros seen; simpl.
  - split; [intros s []|]. split; [constructor|]. intros e [].
  - destruct (negb (ustr_eqb (strip e) []) && negb (mem (lower (strip e)) seen)) eqn:Ec.
    + apply andb_true_iff in Ec as [E1 E2]. apply negb_true_iff in E1, E2.
      apply ustr_eqb_neq in E1. apply mem_false in E2.
      destruct (IH (lower (strip e) :: seen)) as [Hm [Hnd Hcov]]. split; [|split].
      * intros s [<-|Hs].
        -- split; [apply strip_idem|]. split; [exact E1|]. split; [exact E2|].
           exists e. split; [left; reflexivity|reflexivity].
        -- destruct (Hm s Hs) as [Hs1 [Hs2 [Hs3 [e' [He' Hs4]]]]].
           split; [exact Hs1|]. split; [exact Hs2|]. split; [intros H; apply Hs3; right; exact H|].
           exists e'. split; [right; exact He'|exact Hs4].
      * simpl. constructor; [|exact Hnd]. intros Hin.
        apply in_map_iff in Hin as [s [Hs Hin]]. destruct (Hm s Hin) as [_ [_ [Hs3 _]]].
        apply Hs3. left. symmetry. exact Hs.
      * intros e' [<-|He'] Hne; [right; left; reflexivity|].
        destruct (Hcov e' He' Hne) as [[H|H]|H].
        -- right. left. exact H.
        -- left. exact H.
        -- right. right. exact H.
    + destruct (IH seen) as [Hm [Hnd Hcov]]. split; [|split; [exact Hnd|]].
      * intros s Hs. destruct (Hm s Hs) as [Hs1 [Hs2 [Hs3 [e' [He' Hs4]]]]].
        repeat (split; try assumption). exists e'. split; [right; exact He'|exact Hs4].
      * intros e' [<-|He'] Hne; [|apply Hcov; assumption].
        left. apply ustr_eqb_neq in Hne. rewrite Hne in Ec. simpl in Ec.
        apply negb_false_iff, mem_In in Ec. exact Ec.
Qed.

(** The recipients put on the message ([mail.To]) are the stripped input
    addresses, each non-empty and with no two equal after lower-casing;
    every input address that is not blank is represented, up to case, and
    nothing else is added. *)
Theorem perform_action_recipients {UC : UnicodeCase} (emails : list ustr) :
  let clean := clean_emails [] emails in
  (forall s, In s clean -> s <> [] /\ strip s = s /\ exists e, In e emails /\ s = strip e) /\
  NoDup (map lower clean) /\
  (forall e, In e emails -> strip e <> [] -> In (lower (strip e)) (map lower clean)) /\
  (forall subject body display send_ok rs s b,
     In (EvCompose rs s b) (fst (perform_action_with_emails emails subject body display send_ok)) ->
     rs = clean /\ rs <> [] /\ s = subject /\ b = body).
Proof.
  cbv zeta. destruct (clean_emails_gen emails []) as [Hm [Hnd Hcov]]. split; [|split; [exact Hnd|split]].
  - intros s Hs. destruct (Hm s Hs) as [H1 [H2 [_ H4]]]. auto.
  - intros e He Hne. destruct (Hcov e He Hne) as [[]|H]. exact H.
  - intros subject body display send_ok rs s b. unfold perform_action_with_emails.
    destruct (clean_emails [] emails) as [|c cs] eqn:Ec; simpl; [intuition discriminate|].
    destruct display; [|destruct send_ok]; simpl;
      (intros [H|[H|[]]]; [injection H as <- <- <-; split; [reflexivity|]; split; [discriminate|auto]
                          |discriminate]).
Qed.

(* ------------------------------------------------------------------ *)
(** ** Resolving the selected identifiers *)

Lemma resolve_contacts_gen {UC : UnicodeCase} : forall m out,
  let '(evs, valid, missing) := resolve_contacts m out in
  List.length valid + List.length missing = List.length out /\
  List.length evs = List.length valid /\
  (forall ev, In ev evs -> exists g n e, ev = EvContact g n e /\ e <> [] /\
     In e valid /\ dict_get m (casefold g) = Some e /\
     exists gc nc, In (gc, nc) out /\ g = strip (astype_str gc) /\ n = strip (astype_str nc)) /\
  (forall e, In e valid -> e <> [] /\
     exists gc nc, In (gc, nc) out /\ dict_get m (casefold (strip (astype_str gc))) = Some e) /\
  (forall g, In g missing -> exists gc nc, In (gc, nc) out /\ g = strip (astype_str gc) /\
     (dict_get m (casefold g) = None \/ dict_get m (casefold g) = Some [])).
Proof.
  intros m out. induction out as [|[gc nc] rest IH]; simpl.
  - split; [reflexivity|]. split; [reflexivity|]. split; [intros ev []|]. split; [intros e []|]. intros g [].
  - destruct (resolve_contacts m rest) as [[evs valid] missing].
    destruct IH as [H1 [H2 [H3 [H4 H5]]]].
    set (g := strip (astype_str gc)). set (n := strip (astype_str nc)).
    destruct (dict_get m (casefold g)) as [e|] eqn:Eg.
    + destruct (ustr_eqb e []) eqn:Ee.
      * apply ustr_eqb_eq in Ee. subst e. simpl.
        split; [lia|]. split; [exact H2|]. split.
        { intros ev Hev. destruct (H3 ev Hev) as [g' [n' [e' [He [Hne [Hv [Hd [gc' [nc' [Hin Hgn]]]]]]]]]].
          exists g', n', e'. repeat (split; try assumption). exists gc', nc'. split; [right; exact Hin|exact Hgn]. }
        split.
        { intros e' He'. destruct (H4 e' He') as [Hne [gc' [nc' [Hin Hd]]]].
          split; [exact Hne|]. exists gc', nc'. split; [right; exact Hin|exact Hd]. }
        intros g' [<-|Hg'].
        { exists gc, nc. split; [left; reflexivity|]. split; [reflexivity|]. right. exact Eg. }
        destruct (H5 g' Hg') as [gc' [nc' [Hin Hd]]]. exists gc', nc'. split; [right; exact Hin|exact Hd].
      * apply ustr_eqb_neq in Ee. simpl.
        split; [lia|]. split; [congruence|]. split.
        { intros ev [<-|Hev].
          - exists g, n, e. split; [reflexivity|]. split; [exact Ee|]. split; [left; reflexivity|].
            split; [exact Eg|]. exists gc, nc. split; [left; reflexivity|]. split; reflexivity.
          - destruct (H3 ev Hev) as [g' [n' [e' [He [Hne [Hv [Hd [gc' [nc' [Hin Hgn]]]]]]]]]].
            exists g', n', e'. split; [exact He|]. split; [exact Hne|]. split; [right; exact Hv|].
            split; [exact Hd|]. exists gc', nc'. split; [right; exact Hin|exact Hgn]. }
        split.
        { intros e' [<-|He'].
          - split; [exact Ee|]. exists gc, nc. split; [left; reflexivity|exact Eg].
          - destruct (H4 e' He') as [Hne [gc' [nc' [Hin Hd]]]].
            split; [exact Hne|]. exists gc', nc'. split; [right; exact Hin|exact Hd]. }
        intros g' Hg'. destruct (H5 g' Hg') as [gc' [nc' [Hin Hd]]].
        exists gc', nc'. split; [right; exact Hin|exact Hd].
    + simpl. split; [lia|]. split; [exact H2|]. split.
      { intros ev Hev. destruct (H3 ev Hev) as [g' [n' [e' [He [Hne [Hv [Hd [gc' [nc' [Hin Hgn]]]]]]]]]].
        exists g', n', e'. repeat (split; try assumption). exists gc', nc'. split; [right; exact Hin|exact Hgn]. }
      split.
      { intros e' He'. destruct (H4 e' He') as [Hne [gc' [nc' [Hin Hd]]]].
        split; [exact Hne|]. exists gc', nc'. split; [right; exact Hin|exact Hd]. }
      intros g' [<-|Hg'].
      { exists gc, nc. split; [left; reflexivity|]. split; [reflexivity|]. left. exact Eg. }
      destruct (H5 g' Hg') as [gc' [nc' [Hin Hd]]]. exists gc', nc'. split; [right; exact Hin|exact Hd].
Qed.


(* ------------------------------------------------------------------ *)
(** ** What [main] does with Outlook *)

Lemma resolve_contacts_no_mail {UC : UnicodeCase} : forall m out,
  Forall (fun ev => mail_event ev = false) (fst (fst (resolve_contacts m out))).
Proof.
  intros m out. pose proof (resolve_contacts_gen m out) as H.
  destruct (resolve_contacts m out) as [[evs valid] missing]. simpl.
  destruct H as [_ [_ [H3 _]]]. apply Forall_forall. intros ev Hev.
  destruct (H3 ev Hev) as [g [n [e [-> _]]]]. reflexivity.
Qed.

Lemma main_run_mail_cases {UC : UnicodeCase} : forall df ss sc dfm cfg,
  (Forall (fun ev => mail_event ev = false) (fst (main_run df ss sc dfm cfg)) /\
   snd (main_run df ss sc dfm cfg) <> Raised ErrOutlookAborted) \/
  (exists m out evs valid missing subject body pre post,
     build_gpn_to_email_map dfm = inr m /\
     resolve_contacts m out = (evs, valid, missing) /\
     cfg = Some (subject, body) /\
     fst (main_run df ss sc dfm cfg)
       = pre ++ fst (perform_action_with_emails valid subject body true true) ++ post /\
     Forall (fun ev => mail_event ev = false) pre /\
     Forall (fun ev => mail_event ev = false) post /\
     snd (main_run df ss sc dfm cfg) = snd (perform_action_with_emails valid subject body true true)).
Proof.
  intros df ss sc dfm cfg. unfold main_run. cbv zeta.
  destruct (coalesce_columns (columns df) DEFAULT_gpn_id _) as [e|cg];
    [left; split; [repeat constructor|discriminate]|].
  destruct (coalesce_columns (columns df) DEFAULT_name _) as [e|cn];
    [left; split; [repeat constructor|discriminate]|].
  destruct (coalesce_columns (columns df) DEFAULT_status _) as [e|cs];
    [left; split; [repeat constructor|discriminate]|].
  destruct (coalesce_columns (columns df) DEFAULT_cycle _) as [e|cc];
    [left; split; [repeat constructor|discriminate]|].
  simpl.
  set (ev1 := match compute_exceptions (rows df) cg cn cs cc with
              | [] => [EvAllGood] | _ => _ end).
  assert (H1 : Forall (fun ev => mail_event ev = false) ev1)
    by (unfold ev1; destruct (compute_exceptions (rows df) cg cn cs cc); repeat constructor).
  clearbody ev1.
  destruct (build_unique_gpn _ cg cn) as [|o os].
  { left. split; [|discriminate]. repeat (apply Forall_app; split); auto; repeat constructor. }
  destruct (build_gpn_to_email_map dfm) as [e|m] eqn:Eb.
  { left. split; [|discriminate]. repeat (apply Forall_app; split); auto; repeat constructor. }
  pose proof (resolve_contacts_no_mail m (o :: os)) as Hr.
  destruct (resolve_contacts m (o :: os)) as [[evs valid] missing] eqn:Er. simpl in Hr.
  destruct cfg as [[subject body]|].
  2: { left. split; [|discriminate]. repeat (apply Forall_app; split); auto; repeat constructor. }
  right. destruct (perform_action_with_emails valid subject body true true) as [evs5 res] eqn:Ep.
  exists m, (o :: os), evs, valid, missing, subject, body,
    (((ev1 ++ [EvSelections ss sc]) ++ [EvUniqueGPNs (o :: os); EvBuildContactMap]) ++ evs).
  assert (Hpre : Forall (fun ev => mail_event ev = false)
                   (((ev1 ++ [EvSelections ss sc]) ++ [EvUniqueGPNs (o :: os); EvBuildContactMap]) ++ evs))
    by (repeat (apply Forall_app; split); auto; repeat constructor).
  rewrite Ep. simpl. destruct res.
  - exists (match missing with [] => [] | _ => [EvMissingGPNs missing] end).
    do 3 (split; [first [reflexivity|assumption]|]). split; [rewrite !app_assoc; reflexivity|].
    split; [exact Hpre|]. split; [destruct missing; repeat constructor|reflexivity].
  - exists []. do 3 (split; [first [reflexivity|assumption]|]). split; [rewrite app_nil_r; reflexivity|].
    split; [exact Hpre|]. split; [constructor|reflexivity].
  - exists []. do 3 (split; [first [reflexivity|assumption]|]). split; [rewrite app_nil_r; reflexivity|].
    split; [exact Hpre|]. split; [constructor|reflexivity].
Qed.

Lemma dict_get_in {V} : forall (d : dict V) k v, dict_get d k = Some v -> In (k, v) d.
Proof.
  intros d k v H. rewrite dict_get_find in H.
  destruct (find (fun kv => ustr_eqb (fst kv) k) d) as [[k' v']|] eqn:E; [|discriminate].
  injection H as <-. apply find_some in E as [Hin Hk]. apply ustr_eqb_eq in Hk. simpl in Hk.
  subst. exact Hin.
Qed.

Lemma build_map_entry {UC : UnicodeCase} : forall dfm m k v,
  build_gpn_to_email_map dfm = inr m -> In (k, v) m -> k <> [] /\ canonical v = true.
Proof.
  intros dfm m k v H Hin. unfold build_gpn_to_email_map in H.
  destruct (coalesce_columns (columns dfm) (u "GPN") _) as [e|cg]; [discriminate|].
  destruct (coalesce_columns (columns dfm) (u "Email ID") _) as [e|ce]; [discriminate|].
  injection H as <-. destruct (email_map_of_entries _ _ _ _ _ Hin) as [Hk [row [_ [_ He]]]].
  split; [exact Hk|]. rewrite <- He. apply email_raw_canonical_aux.
Qed.

Lemma not_in_no_mail : forall ev l, mail_event ev = true ->
  Forall (fun ev => mail_event ev = false) l -> ~ In ev l.
Proof.
  intros ev l Hm Hf Hin. rewrite Forall_forall in Hf. rewrite (Hf ev Hin) in Hm. discriminate.
Qed.

Lemma perform_display_events {UC : UnicodeCase} : forall emails subject body,
  perform_action_with_emails emails subject body true true =
  match clean_emails [] emails with
  | [] => ([EvNoValidEmails], Finished)
  | clean => ([EvCompose clean subject body; EvDisplay], Finished)
  end.
Proof.
  intros emails subject body. unfold perform_action_with_emails.
  destruct (clean_emails [] emails); reflexivity.
Qed.

Ltac no_mail_in Hpre Hpost Hin :=
  first [ let Hx := fresh in pose proof (proj1 (Forall_forall _ _) Hpre _ Hin) as Hx; discriminate Hx
        | let Hx := fresh in pose proof (proj1 (Forall_forall _ _) Hpost _ Hin) as Hx; discriminate Hx ].

(** [main] never sends a message itself: it calls
    [perform_action_with_emails] with [display_before_send=True], so a
    composed message is only displayed for review. It never calls
    [mail.Send()], never saves a draft, and never ends with the "Outlook
    aborted send" error. *)
Theorem main_never_sends {UC : UnicodeCase} (df : Table) (sel_status sel_cycle : list ustr)
    (dfm : Table) (email_cfg : option (ustr * ustr)) :
  let run := main_run df sel_status sel_cycle dfm email_cfg in
  ~ In EvSend (fst run) /\ ~ In EvSaveDraft (fst run) /\
  snd run <> Raised ErrOutlookAborted /\
  (forall rs s b, In (EvCompose rs s b) (fst run) -> In EvDisplay (fst run)).
Proof.
  cbv zeta.
  destruct (main_run_mail_cases df sel_status sel_cycle dfm email_cfg) as [[Hf Hs]|H].
  - split; [apply not_in_no_mail; [reflexivity|exact Hf]|].
    split; [apply not_in_no_mail; [reflexivity|exact Hf]|]. split; [exact Hs|].
    intros rs s b Hin. exfalso. exact (not_in_no_mail (EvCompose rs s b) _ eq_refl Hf Hin).
  - destruct H as [m [out [evs [valid [missing [subject [body [pre [post
                   [_ [_ [_ [Hrun [Hpre [Hpost Hsnd]]]]]]]]]]]]]]].
    rewrite Hrun, Hsnd. rewrite perform_display_events.
    destruct (clean_emails [] valid) as [|c cs]; simpl.
    + split; [|split; [|split; [discriminate|]]].
      * rewrite !in_app_iff. simpl. intros [Hin|[Hin|Hin]];
          [no_mail_in Hpre Hpost Hin|discriminate|no_mail_in Hpre Hpost Hin].
      * rewrite !in_app_iff. simpl. intros [Hin|[Hin|Hin]];
          [no_mail_in Hpre Hpost Hin|discriminate|no_mail_in Hpre Hpost Hin].
      * intros rs s b. rewrite !in_app_iff. simpl. intros [Hin|[Hin|Hin]]; exfalso;
          [no_mail_in Hpre Hpost Hin|discriminate|no_mail_in Hpre Hpost Hin].
    + split; [|split; [|split; [discriminate|]]].
      * rewrite !in_app_iff. simpl. intros [Hin|[Hin|[Hin|Hin]]]; try discriminate;
          no_mail_in Hpre Hpost Hin.
      * rewrite !in_app_iff. simpl. intros [Hin|[Hin|[Hin|Hin]]]; try discriminate;
          no_mail_in Hpre Hpost Hin.
      * intros _ _ _ _. rewrite !in_app_iff. simpl. tauto.
Qed.

(** Whom [main] writes to. A message is composed only with the subject and
    template of the email configuration. Its recipient list is non-empty
    and has no two addresses equal up to case. Every recipient is the
    value of some entry of the contact map under a non-empty key: no
    address comes from anywhere but the contact table. *)
Theorem main_recipients_from_contact_map {UC : UnicodeCase} (df : Table)
    (sel_status sel_cycle : list ustr) (dfm : Table) (email_cfg : option (ustr * ustr))
    (rs : list ustr) (subject body : ustr)
    (H : In (EvCompose rs subject body) (fst (main_run df sel_status sel_cycle dfm email_cfg))) :
  email_cfg = Some (subject, body) /\ rs <> [] /\ NoDup (map lower rs) /\
  exists m, build_gpn_to_email_map dfm = inr m /\
            forall r, In r rs -> exists k, k <> [] /\ In (k, r) m.
Proof.
  destruct (main_run_mail_cases df sel_status sel_cycle dfm email_cfg) as [[Hf _]|Hc].
  { exfalso. pose proof (proj1 (Forall_forall _ _) Hf _ H) as Hx. discriminate Hx. }
  destruct Hc as [m [out [evs [valid [missing [subject' [body' [pre [post
                 [Hb [Hr [Hcfg [Hrun [Hpre [Hpost _]]]]]]]]]]]]]]].
  rewrite Hrun, perform_display_events in H.
  apply in_app_iff in H as [H|H]; [pose proof (proj1 (Forall_forall _ _) Hpre _ H) as Hx; discriminate Hx|].
  apply in_app_iff in H as [H|H]; [|pose proof (proj1 (Forall_forall _ _) Hpost _ H) as Hx; discriminate Hx].
  destruct (clean_emails [] valid) as [|c cs] eqn:Ec; simpl in H;
    [destruct H as [H|[]]; discriminate|].
  destruct H as [H|[H|[]]]; [|discriminate]. injection H as <- <- <-.
  pose proof (clean_emails_gen valid []) as [Hm [Hnd _]]. rewrite Ec in Hm, Hnd.
  split; [exact Hcfg|]. split; [discriminate|]. split; [exact Hnd|].
  exists m. split; [exact Hb|]. intros r Hin.
  destruct (Hm r Hin) as [_ [_ [_ [e [He ->]]]]].
  pose proof (resolve_contacts_gen m out) as Hg. rewrite Hr in Hg.
  destruct Hg as [_ [_ [_ [Hv _]]]]. destruct (Hv e He) as [_ [gc [nc [_ Hd]]]].
  apply dict_get_in in Hd.
  destruct (build_map_entry dfm m _ e Hb Hd) as [Hk Hcan].
  exists (casefold (strip (astype_str gc))). split; [exact Hk|].
  rewrite (proj1 (canonical_fixed e Hcan)). exact Hd.
Qed.

Lemma main_recipients_from_contact_map_witness :
  @main_run ascii_case two_row_roster [] [] (contact_table [contact_row (Some (u "A1")) (Some (u "a1@ex.com"))])
    (Some (u "Badges", u "<p>Hi</p>"))
  = ([EvExceptionReport [([], u "Invalid Status, Blank Completion-Cycle, Blank GPN")];
      EvSelections [] [];
      EvUniqueGPNs [(Some [], Some (u "bob")); (Some (u "a1"), Some (u "alice"))];
      EvBuildContactMap;
      EvContact (u "a1") (u "alice") (u "a1@ex.com");
      EvCompose [u "a1@ex.com"] (u "Badges") (u "<p>Hi</p>");
      EvDisplay;
      EvMissingGPNs [[]]], Finished) /\
  Some (u "Badges", u "<p>Hi</p>") = Some (u "Badges", u "<p>Hi</p>").
Proof.
  split; [vm_compute; reflexivity|].
  refine (proj1 (@main_recipients_from_contact_map ascii_case two_row_roster [] []
            (contact_table [contact_row (Some (u "A1")) (Some (u "a1@ex.com"))])
            (Some (u "Badges", u "<p>Hi</p>")) [u "a1@ex.com"] (u "Badges") (u "<p>Hi</p>") _)).
  vm_compute. right. right. right. right. right. left. reflexivity.
Defined.

(* ------------------------------------------------------------------ *)
(** ** Positions in the exception report *)

Lemma combine_seq_in {A B} : forall (f : A -> B) l k i r x,
  In (i, r, x) (combine (combine (seq k (List.length l)) l) (map f l)) ->
  k <= i /\ nth_error l (i - k) = Some r /\ x = f r.
Proof.
  intros f l. induction l as [|a l IH]; intros k i r x H; simpl in H; [destruct H|].
  destruct H as [H|H].
  - injection H as <- <- <-. rewrite Nat.sub_diag. auto.
  - destruct (IH (S k) i r x H) as [Hk [Hn Hx]]. split; [lia|]. split; [|exact Hx].
    replace (i - k) with (S (i - S k)) by lia. exact Hn.
Qed.

Lemma combine_seq_sorted {A B} : forall (f : A -> B) l k,
  StronglySorted lt (map (fun o => fst (fst o)) (combine (combine (seq k (List.length l)) l) (map f l))).
Proof.
  intros f l. induction l as [|a l IH]; intros k; simpl; constructor; [apply IH|].
  apply Forall_forall. intros i Hi. apply in_map_iff in Hi as [[[i' r] x] [<- Hin]].
  destruct (combine_seq_in f l (S k) i' r x Hin) as [Hk _]. simpl. lia.
Qed.

Lemma StronglySorted_map_filter {A B} (R : B -> B -> Prop) (g : A -> B) (f : A -> bool) :
  forall l, StronglySorted R (map g l) -> StronglySorted R (map g (filter f l)).
Proof.
  induction l as [|a l IH]; intros H; simpl; [constructor|].
  apply StronglySorted_inv in H as [H1 H2]. destruct (f a); simpl; [|apply IH, H1].
  constructor; [apply IH, H1|]. rewrite Forall_forall in *. intros y Hy.
  apply in_map_iff in Hy as [z [<- Hz]]. apply filter_In in Hz as [Hz _].
  apply H2, in_map, Hz.
Qed.

(** [compute_exceptions] keeps the rows' original positions: each
    reported [(i, row, reason)] is row [i] of the input, with the
    non-empty [", "]-joined reasons of that row. Positions are strictly
    increasing, so rows appear in input order and at most once, and the
    report is never longer than the input. *)
Theorem compute_exceptions_positions {UC : UnicodeCase} (df : list Row)
    (col_gpn col_name col_status col_cycle : ustr) :
  let exc := compute_exceptions df col_gpn col_name col_status col_cycle in
  (forall i row reason, In (i, row, reason) exc ->
     nth_error df i = Some row /\
     reason = join (u ", ") (row_reasons col_gpn col_name col_status col_cycle row) /\
     reason <> []) /\
  StronglySorted lt (map (fun o => fst (fst o)) exc) /\
  List.length exc <= List.length df.
Proof.
  cbv zeta. unfold compute_exceptions. cbv zeta. split; [|split].
  - intros i row reason H. apply filter_In in H as [H Hne].
    destruct (combine_seq_in _ df 0 i row reason H) as [_ [Hn Hr]].
    rewrite Nat.sub_0_r in Hn. split; [exact Hn|]. split; [exact Hr|].
    apply negb_true_iff, ustr_eqb_neq in Hne. exact Hne.
  - apply StronglySorted_map_filter, combine_seq_sorted.
  - etransitivity; [apply filter_length_le|].
    rewrite !length_combine, length_map, length_seq. lia.
Qed.

(* ------------------------------------------------------------------ *)
(** ** How the two filters compose *)

Lemma filter_and_compose {A} (f g : A -> bool) : forall l,
  filter (fun x => f x && g x) l = filter (fun x => true && g x) (filter (fun x => f x && true) l) /\
  filter (fun x => f x && g x) l = filter (fun x => f x && true) (filter (fun x => true && g x) l) /\
  filter (fun x => f x && g x) (filter (fun x => f x && g x) l) = filter (fun x => f x && g x) l.
Proof.
  induction l as [|x l [IH1 [IH2 IH3]]]; [repeat split|]. simpl.
  destruct (f x) eqn:Ef, (g x) eqn:Eg; simpl; rewrite ?Ef, ?Eg; simpl; rewrite ?Ef, ?Eg; simpl;
    repeat split; try (f_equal; assumption); assumption.
Qed.

(** Filtering on both selections is filtering on the status selection,
    then on the cycle selection, in either order. Filtering again with
    the same selections changes nothing. *)
Theorem apply_filters_compose {UC : UnicodeCase} (df : list Row) (col_status col_cycle : ustr)
    (sel_status sel_cycle : list ustr) :
  apply_filters df col_status col_cycle sel_status sel_cycle
    = apply_filters (apply_filters df col_status col_cycle sel_status []) col_status col_cycle [] sel_cycle /\
  apply_filters df col_status col_cycle sel_status sel_cycle
    = apply_filters (apply_filters df col_status col_cycle [] sel_cycle) col_status col_cycle sel_status [] /\
  apply_filters (apply_filters df col_status col_cycle sel_status sel_cycle) col_status col_cycle sel_status sel_cycle
    = apply_filters df col_status col_cycle sel_status sel_cycle.
Proof.
  exact (filter_and_compose
           (fun row => match match sel_status with [] => None | _ => Some (map casefold sel_status) end with
                       | None => true
                       | Some ss => mem (clean_cell (fillna_empty (get_cell row col_status))) ss
                       end)
           (fun row => match match sel_cycle with [] => None | _ => Some (map casefold sel_cycle) end with
                       | None => true
                       | Some cs => mem (clean_cell (fillna_empty (get_cell row col_cycle))) cs
                       end) df).
Qed.

(* ------------------------------------------------------------------ *)
(** ** Filtering on listed options *)

Lemma u_cons : forall a s, u (String a s) = N_of_ascii a :: u s.
Proof. reflexivity. Qed.

Lemma casefold_cons_nonempty {UC : UnicodeCase} : casefold_ok -> forall c t,
  is_space c = false -> c <> ZWSP -> casefold (c :: t) <> [].
Proof.
  intros Hcf c t Hs Hz E. unfold casefold in E. simpl in E. apply app_eq_nil in E as [E _].
  destruct (Hcf c) as [_ [H _]]. destruct (H Hs Hz) as [Hne _]. exact (Hne E).
Qed.

Lemma allowed_casefold_nonempty {UC : UnicodeCase} : casefold_ok -> forall x,
  In x ALLOWED_STATUS \/ In x ALLOWED_CYCLES -> casefold x <> [].
Proof.
  intros Hcf x Hx. unfold ALLOWED_STATUS, ALLOWED_CYCLES in Hx.
  destruct Hx as [Hx|Hx]; simpl in Hx;
  repeat (destruct Hx as [Hx|Hx]; [subst x; rewrite u_cons; apply casefold_cons_nonempty;
                                   [exact Hcf|vm_compute; reflexivity|vm_compute; discriminate]|]);
    contradiction.
Qed.

Lemma triggered_lookup {UC : UnicodeCase} : forall cg cn cs cc row n,
  In n (triggered cg cn cs cc row) -> In (n, true) (reason_table cg cn cs cc row).
Proof.
  intros cg cn cs cc row n H. unfold triggered in H. apply in_map_iff in H as [[n' b] [Hn Hin]].
  apply filter_In in Hin as [Hin Hb]. simpl in Hn, Hb. subst. exact Hin.
Qed.

Ltac reason_cases H :=
  unfold reason_table in H; cbv zeta in H;
  repeat (destruct H as [H|H]; [apply pair_equal_spec in H as [H1 H2];
                                try (vm_compute in H1; discriminate H1)|]);
  try contradiction.

(** When a row passes a non-empty status selection made of listed
    statuses, as [prompt_multi_select] returns, the row has neither of
    the status reasons. The same holds for cycles. So a run that filters on
    such selections only keeps rows whose status, or cycle, the exception
    report accepts. This holds for case mappings with the properties of
    Unicode case folding. *)
Theorem filter_on_listed_options {UC : UnicodeCase} (Hcf : casefold_ok) (df : list Row)
    (col_gpn col_name col_status col_cycle : ustr) (sel_status sel_cycle : list ustr) (row : Row)
    (Hrow : In row (apply_filters df col_status col_cycle sel_status sel_cycle)) :
  let rr := row_reasons col_gpn col_name col_status col_cycle row in
  (sel_status <> [] -> incl sel_status ALLOWED_STATUS ->
     ~ In (u "Blank Status") rr /\ ~ In (u "Invalid Status") rr) /\
  (sel_cycle <> [] -> incl sel_cycle ALLOWED_CYCLES ->
     ~ In (u "Blank Completion-Cycle") rr /\ ~ In (u "Invalid Completion-Cycle") rr).
Proof.
  cbv zeta. unfold apply_filters in Hrow. cbv zeta in Hrow.
  apply filter_In in Hrow as [_ Hm]. apply andb_true_iff in Hm as [Hms Hmc].
  rewrite row_reasons_triggered. split.
  - intros Hne Hincl. destruct sel_status as [|s ss]; [congruence|].
    apply mem_In, in_map_iff in Hms as [x [Hx Hxin]].
    assert (Hne' : ustr_eqb (norm_field col_status row) [] = false).
    { apply ustr_eqb_neq. unfold norm_field. rewrite <- Hx.
      apply allowed_casefold_nonempty; [exact Hcf|left; apply Hincl, Hxin]. }
    assert (Hok : mem (norm_field col_status row) (map casefold ALLOWED_STATUS) = true).
    { apply mem_In. unfold norm_field. rewrite <- Hx. apply in_map, Hincl, Hxin. }
    split; intros H; apply triggered_lookup in H; reason_cases H;
      try (rewrite Hne' in H2; discriminate H2).
    rewrite Hne', Hok in H2. discriminate H2.
  - intros Hne Hincl. destruct sel_cycle as [|c cs]; [congruence|].
    apply mem_In, in_map_iff in Hmc as [x [Hx Hxin]].
    assert (Hne' : ustr_eqb (norm_field col_cycle row) [] = false).
    { apply ustr_eqb_neq. unfold norm_field. rewrite <- Hx.
      apply allowed_casefold_nonempty; [exact Hcf|right; apply Hincl, Hxin]. }
    assert (Hok : mem (norm_field col_cycle row) (map casefold ALLOWED_CYCLES) = true).
    { apply mem_In. unfold norm_field. rewrite <- Hx. apply in_map, Hincl, Hxin. }
    split; intros H; apply triggered_lookup in H; reason_cases H;
      try (rewrite Hne' in H2; discriminate H2).
    rewrite Hne', Hok in H2. discriminate H2.
Qed.

Lemma filter_on_listed_options_witness :
  ~ In (u "Invalid Status")
      (@row_reasons ascii_case (u "GPN") (u "Name") (u "Status") (u "Completion-Cycle")
         (roster_row "A1" "Alice" "Completed" "FY26-Q1(July-Sep)")).
Proof.
  refine (proj2 (proj1 (@filter_on_listed_options ascii_case ascii_casefold_ok (rows two_row_roster)
            (u "GPN") (u "Name") (u "Status") (u "Completion-Cycle") [u "Completed"] []
            (roster_row "A1" "Alice" "Completed" "FY26-Q1(July-Sep)") _) _ _)).
  - vm_compute. left. reflexivity.
  - discriminate.
  - intros x [<-|[]]. right. left. reflexivity.
Defined.

(* ------------------------------------------------------------------ *)
(** ** The deduplicated roster *)

Lemma cell_compare_eq_iff : forall a b, cell_compare a b = Eq <-> a = b.
Proof.
  intros [x|] [y|]; simpl; try (split; congruence).
  rewrite ustr_compare_eq_iff. split; congruence.
Qed.

Lemma cell_compare_antisym : forall a b, cell_compare b a = CompOpp (cell_compare a b).
Proof. intros [x|] [y|]; simpl; try reflexivity. apply ustr_compare_antisym. Qed.

Lemma cell_compare_lt_trans : forall a b c,
  cell_compare a b = Lt -> cell_compare b c = Lt -> cell_compare a c = Lt.
Proof.
  intros [x|] [y|] [z|]; simpl; try discriminate; try reflexivity.
  apply ustr_compare_lt_trans.
Qed.

Lemma cell_compare_not_gt_trans : forall a b c,
  cell_compare a b <> Gt -> cell_compare b c <> Gt -> cell_compare a c <> Gt.
Proof.
  intros a b c H1 H2.
  destruct (cell_compare a b) eqn:E1; [|destruct (cell_compare b c) eqn:E2|contradiction].
  - apply cell_compare_eq_iff in E1. subst. exact H2.
  - apply cell_compare_eq_iff in E2. subst. rewrite E1. discriminate.
  - rewrite (cell_compare_lt_trans a b c E1 E2). discriminate.
  - contradiction.
Qed.

Lemma gpn_name_le_total : forall p q, gpn_name_le p q = false -> gpn_name_le q p = true.
Proof.
  intros [p1 p2] [q1 q2]. unfold gpn_name_le. simpl.
  rewrite (cell_compare_antisym p1 q1), (cell_compare_antisym p2 q2).
  destruct (cell_compare p1 q1); simpl; try discriminate; auto.
  destruct (cell_compare p2 q2); simpl; congruence.
Qed.

Lemma gpn_name_le_iff : forall p q, gpn_name_le p q = true <->
  cell_compare (fst p) (fst q) = Lt \/
  (cell_compare (fst p) (fst q) = Eq /\ cell_compare (snd p) (snd q) <> Gt).
Proof.
  intros [p1 p2] [q1 q2]. unfold gpn_name_le. simpl.
  destruct (cell_compare p1 q1), (cell_compare p2 q2); split; intros H;
    try destruct H as [H|[H H']]; try discriminate; try congruence;
    first [left; reflexivity|right; split; [reflexivity|discriminate]|reflexivity].
Qed.

Lemma gpn_name_le_trans : forall p q r,
  gpn_name_le p q = true -> gpn_name_le q r = true -> gpn_name_le p r = true.
Proof.
  intros p q r H1 H2. apply gpn_name_le_iff in H1, H2. apply gpn_name_le_iff.
  destruct H1 as [H1|[H1 H1']], H2 as [H2|[H2 H2']].
  - left. eapply cell_compare_lt_trans; eassumption.
  - apply cell_compare_eq_iff in H2. rewrite <- H2. left. exact H1.
  - apply cell_compare_eq_iff in H1. rewrite H1. left. exact H2.
  - right. apply cell_compare_eq_iff in H1, H2. rewrite H1, H2.
    split; [apply cell_compare_eq_iff; reflexivity|].
    eapply cell_compare_not_gt_trans; eassumption.
Qed.

Section DropDuplicatesGen.
Context {A K : Type} (eqb : K -> K -> bool) (key : A -> K).
Hypothesis eqb_iff : forall a b, eqb a b = true <-> a = b.

Lemma existsb_eqb_false : forall k seen, existsb (eqb k) seen = false <-> ~ In k seen.
Proof.
  intros k seen. rewrite <- not_true_iff_false, existsb_exists. split.
  - intros H Hin. apply H. exists k. split; [exact Hin|apply eqb_iff; reflexivity].
  - intros H [k' [Hin E]]. apply eqb_iff in E. subst. contradiction.
Qed.

Lemma existsb_eqb_true : forall k seen, existsb (eqb k) seen = true -> In k seen.
Proof.
  intros k seen H. apply existsb_exists in H as [k' [Hin E]]. apply eqb_iff in E. subst. exact Hin.
Qed.

Lemma dd_props : forall l seen,
  NoDup (map key (drop_duplicates_first eqb key seen l)) /\
  (forall y, In y (drop_duplicates_first eqb key seen l) -> ~ In (key y) seen /\ In y l) /\
  (forall x, In x l -> In (key x) seen \/
     exists y, In y (drop_duplicates_first eqb key seen l) /\ key y = key x).
Proof.
  induction l as [|x l IH]; intros seen; simpl.
  - split; [constructor|]. split; [intros y []|intros x' []].
  - destruct (existsb (eqb (key x)) seen) eqn:Ex.
    + destruct (IH seen) as [H1 [H2 H3]]. split; [exact H1|]. split.
      * intros y Hy. destruct (H2 y Hy). auto.
      * intros x' [<-|Hx'].
        -- left. apply existsb_eqb_true, Ex.
        -- apply H3, Hx'.
    + apply existsb_eqb_false in Ex. destruct (IH (key x :: seen)) as [H1 [H2 H3]]. split; [|split].
      * simpl. constructor; [|exact H1]. intros Hin. apply in_map_iff in Hin as [y [Hy Hin]].
        destruct (H2 y Hin) as [Hn _]. apply Hn. left. symmetry. exact Hy.
      * intros y [<-|Hy]; [split; [exact Ex|left; reflexivity]|].
        destruct (H2 y Hy) as [Hn Hin]. split; [intros H; apply Hn; right; exact H|right; exact Hin].
      * intros x' [<-|Hx']; [right; exists x; split; [left|]; reflexivity|].
        destruct (H3 x' Hx') as [[E|E]|[y [Hy E]]].
        -- right. exists x. split; [left; reflexivity|exact E].
        -- left. exact E.
        -- right. exists y. split; [right; exact Hy|exact E].
Qed.

Lemma dd_first : forall l seen y, In y (drop_duplicates_first eqb key seen l) ->
  exists pre post, l = pre ++ y :: post /\ Forall (fun z => key z <> key y) pre.
Proof.
  induction l as [|x l IH]; intros seen y Hy; simpl in Hy; [destruct Hy|].
  destruct (existsb (eqb (key x)) seen) eqn:Ex.
  - destruct (proj2 (dd_props l seen)) as [H2 _]. destruct (H2 y Hy) as [Hn _].
    destruct (IH seen y Hy) as [pre [post [-> Hpre]]]. exists (x :: pre), post.
    split; [reflexivity|]. constructor; [|exact Hpre].
    intros E. apply Hn. rewrite <- E. apply existsb_eqb_true, Ex.
  - destruct Hy as [<-|Hy]; [exists [], l; split; [reflexivity|constructor]|].
    destruct (proj2 (dd_props l (key x :: seen))) as [H2 _]. destruct (H2 y Hy) as [Hn _].
    destruct (IH _ y Hy) as [pre [post [-> Hpre]]]. exists (x :: pre), post.
    split; [reflexivity|]. constructor; [|exact Hpre].
    intros E. apply Hn. left. exact E.
Qed.

Lemma dd_sorted : forall (R : A -> A -> Prop) l seen,
  StronglySorted R l -> StronglySorted R (drop_duplicates_first eqb key seen l).
Proof.
  intros R. induction l as [|x l IH]; intros seen Hs; simpl; [constructor|].
  apply StronglySorted_inv in Hs as [Hs Hf].
  destruct (existsb (eqb (key x)) seen); [apply IH, Hs|].
  constructor; [apply IH, Hs|]. rewrite Forall_forall in *. intros y Hy.
  apply Hf. destruct (proj2 (dd_props l (key x :: seen))) as [H2 _]. apply (H2 y Hy).
Qed.

End DropDuplicatesGen.

Lemma cell_eqb_iff : forall a b, cell_eqb a b = true <-> a = b.
Proof.
  intros [x|] [y|]; simpl; try (split; congruence).
  rewrite ustr_eqb_eq. split; congruence.
Qed.

Lemma StronglySorted_app_cons : forall {A} (R : A -> A -> Prop) pre y post,
  StronglySorted R (pre ++ y :: post) -> Forall (R y) post.
Proof.
  intros A R pre. induction pre as [|x pre IH]; intros y post H; simpl in H.
  - apply StronglySorted_inv in H. tauto.
  - apply StronglySorted_inv in H as [H _]. exact (IH y post H).
Qed.

Lemma StronglySorted_strict_keys : forall l,
  StronglySorted (fun a b => gpn_name_le a b = true) l -> NoDup (map fst l) ->
  StronglySorted (fun p q => cell_compare (fst p) (fst q) = Lt) l.
Proof.
  induction l as [|x l IH]; intros Hs Hn; [constructor|].
  apply StronglySorted_inv in Hs as [Hs Hf]. simpl in Hn. apply NoDup_cons_iff in Hn as [Hx Hn].
  constructor; [apply IH; assumption|]. rewrite Forall_forall in *. intros y Hy.
  specialize (Hf y Hy). apply gpn_name_le_iff in Hf as [Hf|[Hf _]]; [exact Hf|].
  apply cell_compare_eq_iff in Hf. exfalso. apply Hx. rewrite Hf. apply in_map, Hy.
Qed.

(** The deduplicated roster: every row of [build_unique_gpn] is a
    (cleaned identifier, cleaned name) pair of an input row whose name is
    the smallest cleaned name among the rows with that identifier; every
    cleaned identifier of the input (the blank one included, since
    [clean_series] never yields a missing value and [dropna] drops
    nothing) has a row; identifiers are distinct and strictly increasing. *)
Theorem build_unique_gpn_invariants `{UC : UnicodeCase} (df : list Row) (col_gpn col_name : ustr) :
  let out := build_unique_gpn df col_gpn col_name in
  let pairs := map (fun row => (clean_cell (get_cell row col_gpn),
                                clean_cell (get_cell row col_name))) df in
  (forall o, In o out -> exists g n, o = (Some g, Some n) /\ In (g, n) pairs /\
     forall n', In (g, n') pairs -> ustr_compare n n' <> Gt) /\
  (forall g, In g (map fst pairs) -> exists n, In (Some g, Some n) out) /\
  NoDup (map fst out) /\
  StronglySorted (fun p q => cell_compare (fst p) (fst q) = Lt) out.
Proof.
  intros out pairs.
  set (assigned := map (fun row => (Some (clean_cell (get_cell row col_gpn)),
                                    Some (clean_cell (get_cell row col_name)))) df).
  set (dropped := filter (fun p : cell * cell => match fst p with Some _ => true | None => false end) assigned).
  set (sorted := stable_sort gpn_name_le dropped).
  assert (Hout : out = drop_duplicates_first cell_eqb fst [] sorted) by reflexivity.
  assert (Hsorted : forall o, In o sorted <-> exists g n, o = (Some g, Some n) /\ In (g, n) pairs).
  { intros o. unfold sorted. rewrite stable_sort_In. unfold dropped. rewrite filter_In.
    unfold assigned, pairs. rewrite in_map_iff. split.
    - intros [[row [<- Hrow]] _]. do 2 eexists. split; [reflexivity|].
      apply in_map_iff. exists row. split; [reflexivity|exact Hrow].
    - intros [g [n [-> Hp]]]. apply in_map_iff in Hp as [row [E Hrow]].
      injection E as E1 E2. split; [|reflexivity].
      exists row. rewrite E1, E2. split; [reflexivity|exact Hrow]. }
  assert (Hss : StronglySorted (fun a b => gpn_name_le a b = true) sorted).
  { apply Sorted_StronglySorted; [intros x y z; apply gpn_name_le_trans|].
    apply stable_sort_sorted, gpn_name_le_total. }
  destruct (dd_props cell_eqb fst cell_eqb_iff sorted []) as [Hnd [Hin Hcov]].
  rewrite <- Hout in Hnd, Hin, Hcov.
  assert (Hmin : forall o, In o out -> exists g n, o = (Some g, Some n) /\ In (g, n) pairs /\
     forall n', In (g, n') pairs -> ustr_compare n n' <> Gt).
  { intros o Ho. destruct (proj1 (Hsorted o) (proj2 (Hin o Ho))) as [g [n [-> Hp]]].
    exists g, n. split; [reflexivity|]. split; [exact Hp|]. intros n' Hn'.
    assert (Hs' : In (Some g, Some n') sorted) by (apply Hsorted; eauto).
    rewrite Hout in Ho.
    destruct (dd_first cell_eqb fst cell_eqb_iff sorted [] _ Ho) as [pre [post [Esp Hpre]]].
    rewrite Esp in Hs'. apply in_app_or in Hs' as [Hs'|[E|Hs']].
    - rewrite Forall_forall in Hpre. exfalso. apply (Hpre _ Hs'). reflexivity.
    - injection E as ->. rewrite ustr_compare_refl. discriminate.
    - rewrite Esp in Hss. apply StronglySorted_app_cons in Hss.
      rewrite Forall_forall in Hss. specialize (Hss _ Hs').
      apply gpn_name_le_iff in Hss as [H|[_ H]]; simpl in H; [|exact H].
      rewrite ustr_compare_refl in H. discriminate. }
  split; [exact Hmin|]. split; [|split; [exact Hnd|]].
  - intros g Hg. apply in_map_iff in Hg as [[g' n0] [Eg Hp]]. simpl in Eg. subst g'.
    assert (Hs : In (Some g, Some n0) sorted) by (apply Hsorted; eauto).
    destruct (Hcov _ Hs) as [[]|[y [Hy Ey]]].
    destruct (Hmin y Hy) as [g' [n [-> _]]]. simpl in Ey. injection Ey as ->.
    exists n. exact Hy.
  - apply StronglySorted_strict_keys; [|exact Hnd].
    rewrite Hout. apply (dd_sorted cell_eqb fst cell_eqb_iff), Hss.
Qed.
